(** * StoryKeeper: the dictionary persistence layer ([db.py])

    A shallow embedding of [DictionaryDB], the class that holds the
    three tables of the application (dictionary entries, contexts and
    settings) behind one SQLite connection, together with the lemmas
    that characterise its writes, its deletes and its export/import.

    Modelling conventions.
    - Text is a Rocq [string] (a byte string).  [str.lower] is a built-in
      of Python and not code of this repository: the methods that call
      it take it as their argument [lower], and what is proved of them
      is proved for whatever function stands there.  [Text.lower] is that
      function on ASCII text; the scenarios, which are ASCII, use it.
    - Values have the Python types that the annotations of [db.py] give
      them: text for the five text columns, an integer for
      [sense_number].  The [sqlite3] adapter binds a Python [int] only
      when it fits a signed 64-bit integer and raises [OverflowError]
      otherwise; that is the one way an [execute] of this file can fail
      on well-typed arguments, besides a constraint violation.
    - The [id] column is assigned by the engine and no statement of
      [db.py] reads it or filters on it; a table is the list of its rows
      in insertion (rowid) order, without the [id].
    - [with self.conn:] commits when its body returns and rolls back
      when its body raises, then lets the exception propagate.  Every
      method of [db.py] that writes does so inside such a block, so a
      method always starts from a committed state.
    - The callers of the class in managers.py and main_window.py are
      modelled as far as they act on the store: what they read from
      widgets (a box's state, a mode's text) and from files (the members
      of an archive) is an argument. *)

From Stdlib Require Import ZArith Ascii String.
From stdpp Require Import base decidable option list sorting gmap strings.

Local Open Scope Z_scope.

(** ** Text *)

Module Text.

(** [str.lower] on ASCII text; on one character: [A]..[Z] move to
    [a]..[z]. *)
Definition lower_char (c : ascii) : ascii :=
  let n := nat_of_ascii c in
  if ((65 <=? n)%nat && (n <=? 90)%nat)%bool then ascii_of_nat (n + 32) else c.

Fixpoint lower (s : string) : string :=
  match s with
  | EmptyString => EmptyString
  | String c s' => String (lower_char c) (lower s')
  end.

Definition is_lower (s : string) : Prop := lower s = s.

End Text.

(** ** The tables *)

(** One row of [dictionary], in the column order of the schema. *)
Record entry : Type := Entry {
  word : string;
  category : string;
  part_of_speech : string;
  definition : string;
  context_hint : string;
  sense_number : Z
}.

#[global] Instance entry_eq_dec : EqDecision entry.
Proof. solve_decision. Defined.

(** [UNIQUE(word, category, part_of_speech, sense_number)]. *)
Definition unique_key (r : entry) : string * string * string * Z :=
  (word r, category r, part_of_speech r, sense_number r).

(** The database behind the connection: [dictionary], [contexts] (its
    single data column [name]) and [settings] ([key] is the primary key,
    so the table is a finite map). *)
Record db : Type := Db {
  dictionary : list entry;
  contexts : list string;
  settings : gmap string string
}.

Definition set_dictionary (f : list entry → list entry) (s : db) : db :=
  Db (f (dictionary s)) (contexts s) (settings s).
Definition set_contexts (f : list string → list string) (s : db) : db :=
  Db (dictionary s) (f (contexts s)) (settings s).
Definition set_settings (f : gmap string string → gmap string string) (s : db) : db :=
  Db (dictionary s) (contexts s) (f (settings s)).

(** ** Computations on the connection *)

Inductive exn : Type :=
| KeyError (key : string)
| OverflowError
| IntegrityError (constraint : string).

Inductive outcome (A : Type) : Type :=
| Returned (a : A)
| Raised (e : exn).
Arguments Returned {A} a.
Arguments Raised {A} e.

(** A computation runs on the state the connection sees.  When it raises,
    the writes made so far are still pending in the open transaction:
    the state is threaded through [Raised] as well, and it is
    [with_conn] that decides what becomes of it. *)
Definition conn (A : Type) : Type := db → outcome A * db.

#[global] Instance conn_ret : MRet conn := λ A a s, (Returned a, s).
#[global] Instance conn_bind : MBind conn := λ A B f m s,
  match m s with
  | (Returned a, s') => f a s'
  | (Raised e, s') => (Raised e, s')
  end.

Definition raise {A : Type} (e : exn) : conn A := λ s, (Raised e, s).
Definition modify (f : db → db) : conn () := λ s, (Returned (), f s).

(** [for x in l: f(x)] *)
Fixpoint for_each {A : Type} (f : A → conn ()) (l : list A) : conn () :=
  match l with
  | [] => mret ()
  | x :: l' => f x ;; for_each f l'
  end.

(** [with self.conn: body] *)
Definition with_conn (body : conn ()) : conn () := λ s,
  match body s with
  | (Returned _, s') => (Returned (), s')
  | (Raised e, _) => (Raised e, s)
  end.

(** ** The statements of db.py *)

Module Sql.

Definition min_int64 : Z := - 2 ^ 63.
Definition max_int64 : Z := 2 ^ 63 - 1.
Definition fits_int64 (z : Z) : bool := (min_int64 <=? z) && (z <=? max_int64).

(** Binding a Python [int] to a [?] placeholder. *)
Definition bind_int (z : Z) : conn Z :=
  if fits_int64 z then mret z else raise OverflowError.

(** [INSERT OR REPLACE INTO dictionary (word, ..., sense_number)
    VALUES (?, ?, ?, ?, ?, ?)]: the rows that hold the new row's unique
    key are deleted, then the new row is inserted. *)
Definition insert_or_replace (r : entry) (rows : list entry) : list entry :=
  filter (λ r', unique_key r' ≠ unique_key r) rows ++ [r].

Definition execute_insert_or_replace
    (w c p d x : string) (n : Z) : conn () :=
  n' ← bind_int n;
  modify (set_dictionary (insert_or_replace (Entry w c p d x n'))).

(** [DELETE FROM dictionary WHERE word = ? AND sense_number = ?] *)
Definition matches_word_sense (w : string) (n : Z) (r : entry) : Prop :=
  word r = w ∧ sense_number r = n.

Definition execute_delete_word_sense (w : string) (n : Z) : conn () :=
  n' ← bind_int n;
  modify (set_dictionary (filter (λ r, ¬ matches_word_sense w n' r))).

(** [DELETE FROM dictionary WHERE word = ?] *)
Definition execute_delete_word (w : string) : conn () :=
  modify (set_dictionary (filter (λ r, word r ≠ w))).

(** [DELETE FROM dictionary] *)
Definition execute_delete_dictionary : conn () :=
  modify (set_dictionary (λ _, [])).

(** [INSERT OR IGNORE INTO contexts (name) VALUES (?)]: the row is
    skipped when its name is already there ([name TEXT UNIQUE]). *)
Definition insert_or_ignore (name : string) (rows : list string) : list string :=
  if decide (name ∈ rows) then rows else rows ++ [name].

Definition execute_insert_or_ignore_context (name : string) : conn () :=
  modify (set_contexts (insert_or_ignore name)).

(** [DELETE FROM contexts WHERE name = ?] *)
Definition execute_delete_context (name : string) : conn () :=
  modify (set_contexts (filter (λ n, n ≠ name))).

(** [DELETE FROM contexts] *)
Definition execute_delete_contexts : conn () :=
  modify (set_contexts (λ _, [])).

(** [UPDATE contexts SET name = ? WHERE name = ?], row by row in rowid
    order.  [before] holds the rows already visited (updated where
    they matched), [after] the rows still to visit.  A row that
    matches takes the new name unless another row of the table holds
    that name already, in which case [UNIQUE(name)] fails and the
    statement is abandoned. *)
Fixpoint update_name (new old : string) (before after : list string)
    : option (list string) :=
  match after with
  | [] => Some before
  | n :: rest =>
      if decide (n = old)
      then if decide (new ∈ before ∨ new ∈ rest) then None
           else update_name new old (before ++ [new]) rest
      else update_name new old (before ++ [n]) rest
  end.

Definition execute_update_context (new old : string) : conn () := λ s,
  match update_name new old [] (contexts s) with
  | Some rows => (Returned (), set_contexts (λ _, rows) s)
  | None => (Raised (IntegrityError "contexts.name"), s)
  end.

(** [INSERT OR REPLACE INTO settings (key, value) VALUES (?, ?)] *)
Definition execute_insert_or_replace_setting (k v : string) : conn () :=
  modify (set_settings (<[k := v]>)).

End Sql.

(** ** DictionaryDB *)

(** The order of [ORDER BY word, sense_number]: text compares byte by
    byte, integers by value.  Rows that agree on both columns come out
    in an order the engine chooses; no statement below depends on it. *)
Definition entry_le (r1 r2 : entry) : Prop :=
  match String.compare (word r1) (word r2) with
  | Lt => True
  | Eq => sense_number r1 ≤ sense_number r2
  | Gt => False
  end.

#[global] Instance entry_le_dec : RelDecision entry_le.
Proof.
  intros r1 r2. unfold entry_le.
  destruct (String.compare (word r1) (word r2)); apply _.
Defined.

Definition default_contexts : list string :=
  ["Species"; "Planet"; "Language"; "Culture"; "Artifact";
   "Event"; "Location"; "Organization"; "Concept"; "Adjective (race-like)"]%string.

(** [with self.conn: for ctx in defaults: INSERT OR IGNORE INTO contexts] *)
Definition _prepopulate_contexts : conn () :=
  with_conn (for_each Sql.execute_insert_or_ignore_context default_contexts).

(** The three tables as [_create_tables] leaves them in a new file or in
    [":memory:"]. *)
Definition created_tables : db := Db [] [] ∅.

(** [DictionaryDB(":memory:")] *)
Definition fresh_store : db := snd (_prepopulate_contexts created_tables).

(** The methods that call [word.lower()], for the function [lower] in its
    place. *)
Section StrLower.

Variable lower : string → string.

(** [add_entry(word, category, pos, definition, context, sense_number)]:
    one [INSERT OR REPLACE] of [(word.lower(), category, pos, definition,
    context, sense_number)]. *)
Definition add_entry (w c pos d x : string) (n : Z) : conn () :=
  with_conn (Sql.execute_insert_or_replace (lower w) c pos d x n).

(** The body of the loop of [add_multiple_entries]:
    [for pos, definition, context, sense_number in entries: execute(...)]. *)
Definition upsert_tuple (w c : string) (t : string * string * string * Z)
    : conn () :=
  let '(pos, d, x, n) := t in
  Sql.execute_insert_or_replace (lower w) c pos d x n.

(** [add_multiple_entries(word, category, entries)]: the loop, in one
    [with self.conn:] block. *)
Definition add_multiple_entries
    (w c : string) (entries : list (string * string * string * Z)) : conn () :=
  with_conn (for_each (upsert_tuple w c) entries).

(** The same tuple written by a call of [add_entry] of its own. *)
Definition add_entry_tuple (w c : string) (s : db)
    (t : string * string * string * Z) : db :=
  let '(pos, d, x, n) := t in (add_entry w c pos d x n s).2.

(** [delete_entry(word, sense_number=None)]: by word and sense number when
    a sense number is given, by word alone otherwise; the word is
    [word.lower()] in both. *)
Definition delete_entry (w : string) (sense : option Z) : conn () :=
  with_conn
    (match sense with
     | Some n => Sql.execute_delete_word_sense (lower w) n
     | None => Sql.execute_delete_word (lower w)
     end).

End StrLower.

(** [SELECT word, ..., sense_number FROM dictionary ORDER BY word, sense_number] *)
Definition get_all_entries (s : db) : list entry :=
  merge_sort entry_le (dictionary s).

(** [SELECT DISTINCT word FROM dictionary] *)
Definition get_words_list (s : db) : list string :=
  remove_dups (word <$> dictionary s).

(** [SELECT name FROM contexts ORDER BY name] *)
Definition get_contexts (s : db) : list string :=
  merge_sort String.le (contexts s).

Definition add_context (name : string) : conn () :=
  with_conn (Sql.execute_insert_or_ignore_context name).

Definition delete_context (name : string) : conn () :=
  with_conn (Sql.execute_delete_context name).

(** [execute("UPDATE contexts SET name = ? WHERE name = ?", (new_name, old_name))] *)
Definition rename_context (old_name new_name : string) : conn () :=
  with_conn (Sql.execute_update_context new_name old_name).

Definition get_setting (key default : string) (s : db) : string :=
  match settings s !! key with
  | Some v => v
  | None => default
  end.

Definition set_setting (key value : string) : conn () :=
  with_conn (Sql.execute_insert_or_replace_setting key value).

(** *** Export and import *)

(** A mapping of the dictionary payload: what [export_dictionary] builds
    for a row and what [json.load] gives back for it.  A key is either
    absent ([None]) or bound to a value of its column's type. *)
Record entry_dict : Type := EntryDict {
  d_word : option string;
  d_category : option string;
  d_part_of_speech : option string;
  d_definition : option string;
  d_context_hint : option string;
  d_sense_number : option Z
}.

(** A mapping of the contexts payload. *)
Record context_dict : Type := ContextDict { d_name : option string }.

(** [entry[key]] *)
Definition subscript {A : Type} (field : option A) (key : string) : conn A :=
  match field with
  | Some v => mret v
  | None => raise (KeyError key)
  end.

Definition export_dictionary (s : db) : list entry_dict :=
  (λ row, EntryDict (Some (word row)) (Some (category row))
                    (Some (part_of_speech row)) (Some (definition row))
                    (Some (context_hint row)) (Some (sense_number row)))
    <$> get_all_entries s.

Definition export_contexts (s : db) : list context_dict :=
  (λ ctx, ContextDict (Some ctx)) <$> get_contexts s.

(** The body of the loop of [import_dictionary]: the five subscripts, in
    the order of the tuple, then [entry.get("sense_number", 1)], then the
    [INSERT OR REPLACE].  The word is bound as the mapping gives it. *)
Definition import_entry (e : entry_dict) : conn () :=
  w ← subscript (d_word e) "word";
  c ← subscript (d_category e) "category";
  pos ← subscript (d_part_of_speech e) "part_of_speech";
  d ← subscript (d_definition e) "definition";
  x ← subscript (d_context_hint e) "context_hint";
  Sql.execute_insert_or_replace w c pos d x (default 1 (d_sense_number e)).

(** [import_dictionary(data, mode)]: [DELETE FROM dictionary] when [mode]
    is ["replace"], then the loop, all in one [with self.conn:] block. *)
Definition import_dictionary (data : list entry_dict) (mode : string) : conn () :=
  with_conn
    ((if String.eqb mode "replace" then Sql.execute_delete_dictionary else mret ());;
     for_each import_entry data).

Definition import_context (e : context_dict) : conn () :=
  name ← subscript (d_name e) "name";
  Sql.execute_insert_or_ignore_context name.

(** [import_contexts(data, mode)], likewise, with [INSERT OR IGNORE]. *)
Definition import_contexts (data : list context_dict) (mode : string) : conn () :=
  with_conn
    ((if String.eqb mode "replace" then Sql.execute_delete_contexts else mret ());;
     for_each import_context data).

(** [json.load] of what [export_dictionary] wrote reads a row back from a
    mapping that binds the five text keys; [sense_number] defaults to 1. *)
Definition payload_row (e : entry_dict) : option entry :=
  w ← d_word e; c ← d_category e; pos ← d_part_of_speech e;
  d ← d_definition e; x ← d_context_hint e;
  Some (Entry w c pos d x (default 1 (d_sense_number e))).

(** A mapping that lacks one of the keys [import_dictionary] subscripts. *)
Definition malformed (e : entry_dict) : Prop :=
  d_word e = None ∨ d_category e = None ∨ d_part_of_speech e = None ∨
  d_definition e = None ∨ d_context_hint e = None.

(** A mapping [import_dictionary] can store: the five text keys are
    bound and the sense number, given or defaulted, is one SQLite holds. *)
Definition well_formed (e : entry_dict) : Prop :=
  ¬ malformed e ∧ Sql.fits_int64 (default 1 (d_sense_number e)).

(** The (word, category, part of speech, sense) of a mapping. *)
Definition payload_key (e : entry_dict)
    : option string * option string * option string * Z :=
  (d_word e, d_category e, d_part_of_speech e, default 1 (d_sense_number e)).

(** The rows of [contexts] after [INSERT OR IGNORE] of each of [names],
    in order. *)
Definition add_names (names : list string) (s : db) : db :=
  foldl (λ s0 name, set_contexts (Sql.insert_or_ignore name) s0) s names.

(** ** The constraints of the schema *)

(** What SQLite guarantees of any state of the file: the two [UNIQUE]
    constraints, and an [INTEGER] column of 64-bit integers. *)
Record store_ok (s : db) : Prop := StoreOk {
  ok_unique : NoDup (unique_key <$> dictionary s);
  ok_int64 : Forall (λ r, Sql.fits_int64 (sense_number r)) (dictionary s);
  ok_names : NoDup (contexts s)
}.

Section Calls.

Variable lower : string → string.

(** The calls a collaborator can make on a store, with arguments of
    their annotated types; the payloads of the imports are lists of
    [entry_dict] and of [context_dict], which bind a key to a value of
    its column's type or not at all. *)
Inductive step : db → db → Prop :=
| step_add_entry s w c pos d x n :
    step s (add_entry lower w c pos d x n s).2
| step_add_multiple_entries s w c entries :
    step s (add_multiple_entries lower w c entries s).2
| step_delete_entry s w sense :
    step s (delete_entry lower w sense s).2
| step_add_context s name :
    step s (add_context name s).2
| step_delete_context s name :
    step s (delete_context name s).2
| step_rename_context s old new :
    step s (rename_context old new s).2
| step_set_setting s k v :
    step s (set_setting k v s).2
| step_import_dictionary s data mode :
    step s (import_dictionary data mode s).2
| step_import_contexts s data mode :
    step s (import_contexts data mode s).2
| step_reopen s :
    step s (_prepopulate_contexts s).2.

Definition reachable (s : db) : Prop := rtc step fresh_store s.

(** The calls that write a word bind [word.lower()], all but
    [import_dictionary]: the stores these calls alone can produce. *)
Inductive step_lower : db → db → Prop :=
| lower_add_entry s w c pos d x n :
    step_lower s (add_entry lower w c pos d x n s).2
| lower_add_multiple_entries s w c entries :
    step_lower s (add_multiple_entries lower w c entries s).2
| lower_delete_entry s w sense :
    step_lower s (delete_entry lower w sense s).2
| lower_add_context s name :
    step_lower s (add_context name s).2
| lower_delete_context s name :
    step_lower s (delete_context name s).2
| lower_rename_context s old new :
    step_lower s (rename_context old new s).2
| lower_set_setting s k v :
    step_lower s (set_setting k v s).2
| lower_import_contexts s data mode :
    step_lower s (import_contexts data mode s).2
| lower_reopen s :
    step_lower s (_prepopulate_contexts s).2.

(** A word that [lower] leaves as it is. *)
Definition is_lower (w : string) : Prop := lower w = w.

(** The rows a batch of [add_multiple_entries] writes. *)
Definition batch_rows (w c : string) (entries : list (string * string * string * Z))
    : list entry :=
  (λ '(pos, d, x, n), Entry (lower w) c pos d x n) <$> entries.

End Calls.

(** ** Callers of the class *)

(** [ContextManager] (managers.py): the box "Auto-learn new contexts" is
    checked when [get_setting("auto_learn_contexts")], whose default is
    ["false"], is ["true"]; [toggle_auto_learn] writes the state of the
    box back as ["true"] or ["false"]. *)
Definition auto_learn_checked (s : db) : bool :=
  bool_decide (get_setting "auto_learn_contexts" "false" s = "true"%string).

Definition toggle_auto_learn (is_checked : bool) : conn () :=
  let value := if is_checked then "true"%string else "false"%string in
  set_setting "auto_learn_contexts" value.

(** The archive of [export_project] and [import_project] (main_window.py),
    as far as the store is concerned: the members [dictionary.json] and
    [contexts.json], each there or not.  [json.dump] and [json.load] give
    back the mappings they were given; the text of the editor,
    [content.txt], is no matter of the store. *)
Record archive : Type := Archive {
  dictionary_json : option (list entry_dict);
  contexts_json : option (list context_dict)
}.

(** [if data:] on a list, or [None]. *)
Definition written {A : Type} (data : option (list A)) : option (list A) :=
  match data with
  | Some (x :: l) => Some (x :: l)
  | Some [] => None
  | None => None
  end.

(** [export_project]: the data of each kind is exported when its box is
    checked, and its member is written when the data is not empty. *)
Definition export_project (include_dict include_ctx : bool) (s : db) : archive :=
  let dictionary_data := if include_dict then Some (export_dictionary s) else None in
  let context_data := if include_ctx then Some (export_contexts s) else None in
  Archive (written dictionary_data) (written context_data).

(** [import_project]: the modes are the texts of the two boxes
    ("Merge", "Replace" or "Skip"), lowercased; a member is imported when
    it is there and its mode is not ["skip"], the dictionary first, each
    in a block of its own, and an exception is not caught. *)
Definition import_project (a : archive) (dict_mode_text ctx_mode_text : string)
    : conn () :=
  let dict_mode := Text.lower dict_mode_text in
  let ctx_mode := Text.lower ctx_mode_text in
  (match dictionary_json a with
   | Some data =>
       if decide (dict_mode ≠ "skip"%string) then import_dictionary data dict_mode
       else mret ()
   | None => mret ()
   end);;
  (match contexts_json a with
   | Some data =>
       if decide (ctx_mode ≠ "skip"%string) then import_contexts data ctx_mode
       else mret ()
   | None => mret ()
   end).

(** ** Scenarios *)

(** The two meanings of the tests of [db.py]. *)
Definition two_meanings : list (string * string * string * Z) :=
  [("Noun", "First meaning.", "Context A", 1);
   ("Noun", "Second meaning.", "Context B", 2)]%string.

(** One word filed under two categories, each with its own sense 1, and
    a second sense under the first category. *)
Definition two_categories : db :=
  let s1 := (add_entry Text.lower "kaneran" "Species" "Noun" "An alien species." "Sci-fi context" 1
               fresh_store).2 in
  let s2 := (add_entry Text.lower "kaneran" "Planet" "Noun" "A ringed world." "Astronomy" 1 s1).2 in
  (add_entry Text.lower "kaneran" "Species" "Noun" "A constellation." "Astronomy" 2 s2).2.

(** An archive whose only entry spells its word with a capital. *)
Definition capital_payload : list entry_dict :=
  [EntryDict (Some "Kaneran") (Some "Species") (Some "Noun")
             (Some "An alien species.") (Some "Sci-fi context") (Some 1)]%string.

(** An archive whose second entry lacks its definition. *)
Definition broken_payload : list entry_dict :=
  [EntryDict (Some "kaneran") (Some "Species") (Some "Noun")
             (Some "An alien species.") (Some "Sci-fi context") (Some 1);
   EntryDict (Some "orrin") (Some "Planet") (Some "Noun")
             None (Some "Astronomy") None]%string.

(** An archive of two entries with different keys, the second without a
    sense number. *)
Definition two_entry_payload : list entry_dict :=
  [EntryDict (Some "kaneran") (Some "Species") (Some "Noun")
             (Some "An alien species.") (Some "Sci-fi context") (Some 2);
   EntryDict (Some "orrin") (Some "Planet") (Some "Noun")
             (Some "A ringed world.") (Some "Astronomy") None]%string.

(** A contexts archive that names "Galaxy" twice and one of the
    defaults. *)
Definition repeated_contexts : list context_dict :=
  [ContextDict (Some "Galaxy"); ContextDict (Some "Galaxy");
   ContextDict (Some "Species")]%string.

(** An archive with a dictionary that can be stored and contexts of
    which one has no name. *)
Definition half_good_archive : archive :=
  Archive (Some two_entry_payload)
          (Some [ContextDict (Some "Galaxy"); ContextDict None])%string.

(** * Lemmas *)
Implicit Types (lower : string → string).


(** ** The connection monad *)

Section Monad.

Context {A : Type}.
Implicit Types (f : A → conn ()) (l : list A) (s : db).

Lemma with_conn_returned (body : conn ()) s s' u :
  body s = (Returned u, s') → with_conn body s = (Returned (), s').
Proof. unfold with_conn. by intros ->. Qed.

Lemma with_conn_raised (body : conn ()) s s' e :
  body s = (Raised e, s') → with_conn body s = (Raised e, s).
Proof. unfold with_conn. by intros ->. Qed.

Lemma for_each_cons f x l s :
  for_each f (x :: l) s =
  match f x s with
  | (Returned _, s') => for_each f l s'
  | (Raised e, s') => (Raised e, s')
  end.
Proof. reflexivity. Qed.

(** A loop in which every iteration returns, returns; its state is the
    fold of the iterations. *)
Lemma for_each_returned f (g : db → A → db) l s :
  Forall (λ x, ∀ s0, f x s0 = (Returned (), g s0 x)) l →
  for_each f l s = (Returned (), foldl g s l).
Proof.
  intros H. revert s. induction H as [|x l Hx _ IH]; intros s; [done|].
  rewrite for_each_cons, Hx. apply IH.
Qed.

(** A loop with an iteration that raises in every state raises, unless
    an earlier iteration did. *)
Lemma for_each_raised f l s :
  Exists (λ x, ∀ s0, ∃ e, f x s0 = (Raised e, s0)) l →
  ∃ e s', for_each f l s = (Raised e, s').
Proof.
  intros H. revert s. induction H as [x l Hx|x l _ IH]; intros s;
    rewrite for_each_cons.
  - destruct (Hx s) as [e ->]. eauto.
  - destruct (f x s) as [[[]|e] s']; eauto.
Qed.

End Monad.

(** ** Text *)

Lemma lower_char_idemp (c : ascii) :
  Text.lower_char (Text.lower_char c) = Text.lower_char c.
Proof. by destruct c as [[] [] [] [] [] [] [] []]. Qed.

Lemma lower_idemp (w : string) : Text.is_lower (Text.lower w).
Proof.
  unfold Text.is_lower. induction w as [|c w IH]; simpl; [done|].
  by rewrite lower_char_idemp, IH.
Qed.

(** ** Statements *)

Lemma fits_int64_bounds (z : Z) :
  Sql.fits_int64 z ↔ - 2 ^ 63 ≤ z ≤ 2 ^ 63 - 1.
Proof.
  unfold Sql.fits_int64, Sql.min_int64, Sql.max_int64.
  rewrite andb_True, !Is_true_true, Z.leb_le, Z.leb_le. done.
Qed.

Lemma bind_int_fits (z : Z) (s : db) :
  Sql.fits_int64 z → Sql.bind_int z s = (Returned z, s).
Proof. unfold Sql.bind_int. by intros ->%Is_true_true. Qed.

Lemma bind_int_overflow (z : Z) (s : db) :
  ¬ Sql.fits_int64 z → Sql.bind_int z s = (Raised OverflowError, s).
Proof.
  unfold Sql.bind_int. destruct (Sql.fits_int64 z); [|done].
  intros []. done.
Qed.

Lemma execute_insert_or_replace_fits w c p d x n s :
  Sql.fits_int64 n →
  Sql.execute_insert_or_replace w c p d x n s =
  (Returned (), set_dictionary (Sql.insert_or_replace (Entry w c p d x n)) s).
Proof.
  intros Hn. unfold Sql.execute_insert_or_replace, mbind, conn_bind.
  by rewrite bind_int_fits.
Qed.

Lemma execute_insert_or_replace_overflow w c p d x n s :
  ¬ Sql.fits_int64 n →
  Sql.execute_insert_or_replace w c p d x n s = (Raised OverflowError, s).
Proof.
  intros Hn. unfold Sql.execute_insert_or_replace, mbind, conn_bind.
  by rewrite bind_int_overflow.
Qed.

(** After [INSERT OR REPLACE] the new row is the only one with its key. *)
Lemma insert_or_replace_key (r : entry) (rows : list entry) :
  filter (λ r', unique_key r' = unique_key r) (Sql.insert_or_replace r rows) = [r].
Proof.
  unfold Sql.insert_or_replace. rewrite filter_app, list_filter_filter.
  rewrite (filter_singleton_True _ r) by done.
  replace (filter _ rows) with (@nil entry); [done|].
  symmetry. induction rows as [|r' rows IH]; [done|].
  rewrite filter_cons_False; [done|]. tauto.
Qed.

(** A row whose key is new is appended. *)
Lemma insert_or_replace_new (r : entry) (rows : list entry) :
  unique_key r ∉ unique_key <$> rows → Sql.insert_or_replace r rows = rows ++ [r].
Proof.
  intros Hr. unfold Sql.insert_or_replace. f_equal.
  induction rows as [|r' rows IH]; [done|].
  rewrite fmap_cons, not_elem_of_cons in Hr. destruct Hr as [Hne Hr].
  rewrite filter_cons_True by done. by rewrite IH.
Qed.

Lemma insert_or_replace_unique (r : entry) (rows : list entry) :
  NoDup (unique_key <$> rows) →
  NoDup (unique_key <$> Sql.insert_or_replace r rows).
Proof.
  intros Hnd. unfold Sql.insert_or_replace.
  rewrite fmap_app. apply NoDup_app. split_and!.
  - induction rows as [|r' rows IH]; [constructor|].
    rewrite fmap_cons, NoDup_cons in Hnd. destruct Hnd as [Hr' Hnd].
    destruct (decide (unique_key r' ≠ unique_key r)).
    + rewrite filter_cons_True by done. rewrite fmap_cons. constructor; [|auto].
      rewrite list_elem_of_fmap. intros (r'' & Hk & Hin%list_elem_of_filter).
      apply Hr'. rewrite list_elem_of_fmap. exists r''. tauto.
    + rewrite filter_cons_False by done. auto.
  - intros k (r'' & -> & [Hne _]%list_elem_of_filter)%list_elem_of_fmap.
    rewrite list_elem_of_fmap. intros (r2 & Hk & ->%list_elem_of_singleton). done.
  - apply NoDup_singleton.
Qed.

Lemma insert_or_replace_int64 (r : entry) (rows : list entry) :
  Sql.fits_int64 (sense_number r) →
  Forall (λ r, Sql.fits_int64 (sense_number r)) rows →
  Forall (λ r, Sql.fits_int64 (sense_number r)) (Sql.insert_or_replace r rows).
Proof.
  intros Hr Hrows. unfold Sql.insert_or_replace. apply Forall_app. split.
  - rewrite Forall_forall in Hrows |- *.
    intros r' [_ Hin]%list_elem_of_filter. auto.
  - by apply Forall_singleton.
Qed.

(** ** Entries: upsert *)

Lemma add_entry_fits lower s w c pos d x n :
  Sql.fits_int64 n →
  add_entry lower w c pos d x n s =
  (Returned (),
   set_dictionary (Sql.insert_or_replace (Entry (lower w) c pos d x n)) s).
Proof.
  intros Hn. unfold add_entry.
  eapply with_conn_returned, execute_insert_or_replace_fits, Hn.
Qed.

Lemma add_entry_overflow lower s w c pos d x n :
  ¬ Sql.fits_int64 n → add_entry lower w c pos d x n s = (Raised OverflowError, s).
Proof.
  intros Hn. unfold add_entry.
  eapply with_conn_raised, execute_insert_or_replace_overflow, Hn.
Qed.

(** C5. Upserting the same (word, category, part of speech, sense) twice,
    with definitions [d1] then [d2], returns both times and leaves
    exactly one row under that key (the word case-folded, as it is
    stored), and the row carries [d2].  The tuple is a valid one: its
    sense number is an integer SQLite can hold. *)
Theorem add_entry_twice_overwrites lower s w c pos d1 d2 x n :
  Sql.fits_int64 n →
  ∃ s1 s2,
    add_entry lower w c pos d1 x n s = (Returned (), s1) ∧
    add_entry lower w c pos d2 x n s1 = (Returned (), s2) ∧
    filter (λ r, unique_key r = (lower w, c, pos, n)) (dictionary s2)
      = [Entry (lower w) c pos d2 x n].
Proof.
  intros Hn. eexists _, _. split_and!.
  - by apply add_entry_fits.
  - by apply add_entry_fits.
  - simpl. apply (insert_or_replace_key (Entry (lower w) c pos d2 x n)).
Qed.

Lemma add_entry_twice_overwrites_witness :
  Sql.fits_int64 1 ∧
  ∃ s1 s2,
    add_entry Text.lower "Kaneran" "Species" "Noun" "An alien species." "Sci-fi" 1 fresh_store
      = (Returned (), s1) ∧
    add_entry Text.lower "Kaneran" "Species" "Noun" "A constellation." "Sci-fi" 1 s1
      = (Returned (), s2) ∧
    filter (λ r, unique_key r = (Text.lower "Kaneran", "Species", "Noun", 1)%string)
           (dictionary s2)
      = [Entry (Text.lower "Kaneran") "Species" "Noun" "A constellation." "Sci-fi" 1].
Proof.
  split; [exact I|].
  exact (add_entry_twice_overwrites Text.lower fresh_store "Kaneran" "Species" "Noun"
           "An alien species." "A constellation." "Sci-fi" 1 I).
Defined.

(** ** Entries: batch upsert *)

Lemma for_each_upsert_overflow lower w c entries s :
  Exists (λ t, ¬ Sql.fits_int64 t.2) entries →
  ∃ s', for_each (upsert_tuple lower w c) entries s = (Raised OverflowError, s').
Proof.
  intros H. revert s. induction H as [[[[pos d] x] n] l Hn|[[[pos d] x] n] l _ IH];
    intros s; rewrite for_each_cons; simpl in *.
  - rewrite execute_insert_or_replace_overflow by done. eauto.
  - destruct (decide (Sql.fits_int64 n)).
    + rewrite execute_insert_or_replace_fits by done. apply IH.
    + rewrite execute_insert_or_replace_overflow by done. eauto.
Qed.

Lemma add_multiple_entries_fits lower s w c entries :
  Forall (λ t, Sql.fits_int64 t.2) entries →
  add_multiple_entries lower w c entries s
    = (Returned (), foldl (add_entry_tuple lower w c) s entries).
Proof.
  intros Hall. unfold add_multiple_entries.
  eapply with_conn_returned, for_each_returned.
  eapply Forall_impl; [exact Hall|].
  intros [[[pos d] x] n] Hn s0. simpl in *.
  rewrite add_entry_fits by done. by apply execute_insert_or_replace_fits.
Qed.

Lemma add_multiple_entries_overflow lower s w c entries :
  Exists (λ t, ¬ Sql.fits_int64 t.2) entries →
  add_multiple_entries lower w c entries s = (Raised OverflowError, s).
Proof.
  intros Hsome. unfold add_multiple_entries.
  destruct (for_each_upsert_overflow lower w c entries s Hsome) as [s' Hs'].
  by eapply with_conn_raised.
Qed.

Lemma insert_or_replace_other_key (r : entry) (k : string * string * string * Z)
    (rows : list entry) :
  unique_key r ≠ k →
  filter (λ r', unique_key r' = k) (Sql.insert_or_replace r rows)
  = filter (λ r', unique_key r' = k) rows.
Proof.
  intros Hne. unfold Sql.insert_or_replace.
  rewrite filter_app, list_filter_filter, filter_cons_False by done.
  rewrite filter_nil, app_nil_r. apply list_filter_iff.
  intros r'. split; [tauto|]. intros Hk. split; [done|]. congruence.
Qed.

(** Of the rows written one after the other under one key, the last is
    the one that stays. *)
Lemma foldl_insert_last (r : entry) (rows1 rows2 acc : list entry) :
  Forall (λ r', unique_key r' ≠ unique_key r) rows2 →
  filter (λ r', unique_key r' = unique_key r)
         (foldl (λ acc r', Sql.insert_or_replace r' acc) acc (rows1 ++ r :: rows2))
  = [r].
Proof.
  intros Hlater. rewrite foldl_app. simpl.
  generalize (foldl (λ acc r', Sql.insert_or_replace r' acc) acc rows1).
  intros acc1. pose proof (insert_or_replace_key r acc1) as Hr.
  revert Hr. generalize (Sql.insert_or_replace r acc1). clear acc1.
  induction Hlater as [|r' rows2 Hr' _ IH]; intros acc2 Hacc; [done|].
  simpl. apply IH. by rewrite insert_or_replace_other_key.
Qed.

(** The rows under keys that are not written stay as they are. *)
Lemma foldl_insert_others (keys : list (string * string * string * Z))
    (rows acc : list entry) :
  Forall (λ r, unique_key r ∈ keys) rows →
  filter (λ r, unique_key r ∉ keys)
         (foldl (λ acc r', Sql.insert_or_replace r' acc) acc rows)
  = filter (λ r, unique_key r ∉ keys) acc.
Proof.
  intros H. revert acc. induction H as [|r rows Hr _ IH]; intros acc; [done|].
  simpl. rewrite IH. unfold Sql.insert_or_replace.
  rewrite filter_app, list_filter_filter, filter_cons_False by tauto.
  rewrite filter_nil, app_nil_r. apply list_filter_iff.
  intros r'. split; [tauto|]. intros Hk. split; [done|].
  intros Heq. apply Hk. by rewrite Heq.
Qed.

Lemma foldl_add_entry_tuple lower w c entries s :
  Forall (λ t, Sql.fits_int64 t.2) entries →
  foldl (add_entry_tuple lower w c) s entries
  = set_dictionary
      (λ rows, foldl (λ acc r, Sql.insert_or_replace r acc) rows
                     (batch_rows lower w c entries)) s.
Proof.
  intros H. revert s. induction H as [|[[[pos d] x] n] entries Hn _ IH]; intros s.
  - by destruct s.
  - simpl in *. rewrite add_entry_fits by done. cbn [snd]. by rewrite IH.
Qed.

(** C6. [add_multiple_entries] is all or nothing.  When every sense
    number can be bound, the call returns and every tuple is written:
    the store is the one that a call of [add_entry] per tuple, in order,
    would have produced; under the key of each tuple there is exactly
    one row, that of the last tuple of the batch with its part of
    speech and sense; and the rows under keys the batch does not write,
    the contexts and the settings are as before.  When some tuple's
    write fails, the call raises that error and the store is the one it
    started from, with no tuple written. *)
Theorem add_multiple_entries_atomic lower s w c entries :
  (Forall (λ t, Sql.fits_int64 t.2) entries ∧
   ∃ s',
     add_multiple_entries lower w c entries s = (Returned (), s') ∧
     s' = foldl (add_entry_tuple lower w c) s entries ∧
     (∀ before pos d x n after,
        entries = before ++ (pos, d, x, n) :: after →
        Forall (λ t, (t.1.1.1, t.2) ≠ (pos, n)) after →
        filter (λ r, unique_key r = (lower w, c, pos, n)) (dictionary s')
        = [Entry (lower w) c pos d x n]) ∧
     filter (λ r, unique_key r ∉ unique_key <$> batch_rows lower w c entries)
            (dictionary s')
     = filter (λ r, unique_key r ∉ unique_key <$> batch_rows lower w c entries)
              (dictionary s) ∧
     contexts s' = contexts s ∧ settings s' = settings s)
  ∨
  (Exists (λ t, ¬ Sql.fits_int64 t.2) entries ∧
   add_multiple_entries lower w c entries s = (Raised OverflowError, s)).
Proof.
  destruct (decide (Forall (λ t, Sql.fits_int64 t.2) entries)) as [Hall|Hsome].
  - left. split; [done|]. eexists. split; [by apply add_multiple_entries_fits|].
    split; [done|]. rewrite foldl_add_entry_tuple by done. simpl.
    split_and!; [|  |done..].
    + intros before pos d x n after -> Hafter.
      unfold batch_rows. rewrite fmap_app, fmap_cons.
      apply (foldl_insert_last (Entry (lower w) c pos d x n)).
      apply Forall_fmap. eapply Forall_impl; [exact Hafter|].
      intros [[[pos' d'] x'] n'] Hne; simpl in *.
      unfold unique_key; simpl. congruence.
    + apply foldl_insert_others. apply Forall_forall.
      intros r Hr. apply list_elem_of_fmap. eauto.
  - right. apply not_Forall_Exists in Hsome; [|apply _]. split; [done|].
    by apply add_multiple_entries_overflow.
Qed.

Lemma add_multiple_entries_atomic_witness :
  ∃ s', add_multiple_entries Text.lower "Kaneran" "Species" two_meanings fresh_store
          = (Returned (), s') ∧
        filter (λ r, unique_key r = (Text.lower "Kaneran", "Species", "Noun", 1)%string)
               (dictionary s')
          = [Entry (Text.lower "Kaneran") "Species" "Noun" "First meaning." "Context A" 1] ∧
        filter (λ r, unique_key r = (Text.lower "Kaneran", "Species", "Noun", 2)%string)
               (dictionary s')
          = [Entry (Text.lower "Kaneran") "Species" "Noun" "Second meaning." "Context B" 2].
Proof.
  destruct (add_multiple_entries_atomic Text.lower fresh_store "Kaneran" "Species"
              two_meanings)
    as [(_ & s' & Hret & _ & Hrows & _)|[Hex _]].
  - exists s'. split; [exact Hret|]. split.
    + apply (Hrows [] "Noun" "First meaning." "Context A" 1
               [("Noun", "Second meaning.", "Context B", 2)]%string eq_refl).
      apply (bool_decide_unpack _). vm_compute. exact I.
    + apply (Hrows [("Noun", "First meaning.", "Context A", 1)]%string
               "Noun" "Second meaning." "Context B" 2 [] eq_refl).
      apply List.Forall_nil.
  - exfalso. revert Hex. apply (bool_decide_unpack _). vm_compute. exact I.
Defined.

(** Both calls that write a word through the store's own methods store
    it case-folded: a word that [lower] leaves as it is, when folding
    twice is folding once, as it is for [str.lower]. *)
Lemma add_entry_stores_lower lower s w c pos d x n :
  (∀ w', lower (lower w') = lower w') →
  Forall (λ r, is_lower lower (word r)) (dictionary s) →
  Forall (λ r, is_lower lower (word r)) (dictionary (add_entry lower w c pos d x n s).2).
Proof.
  intros Hidem Hs. destruct (decide (Sql.fits_int64 n)) as [Hn|Hn].
  - rewrite add_entry_fits by done. simpl. unfold Sql.insert_or_replace.
    apply Forall_app. split.
    + rewrite Forall_forall in Hs |- *.
      intros r [_ Hin]%list_elem_of_filter. auto.
    + apply Forall_singleton. apply Hidem.
  - by rewrite add_entry_overflow.
Qed.

Lemma add_multiple_entries_stores_lower lower s w c entries :
  (∀ w', lower (lower w') = lower w') →
  Forall (λ r, is_lower lower (word r)) (dictionary s) →
  Forall (λ r, is_lower lower (word r))
         (dictionary (add_multiple_entries lower w c entries s).2).
Proof.
  intros Hidem Hs.
  destruct (decide (Forall (λ t, Sql.fits_int64 t.2) entries)) as [Hall|Hsome];
    [rewrite add_multiple_entries_fits by done
    |apply not_Forall_Exists in Hsome; [|apply _];
     by rewrite add_multiple_entries_overflow].
  clear Hall. simpl. revert s Hs. induction entries as [|[[[pos d] x] n] l IH]; intros s Hs; [done|].
  simpl. apply IH. by apply add_entry_stores_lower.
Qed.

(** C3. [import_dictionary] stores the word as the payload spells it:
    importing an entry for "Kaneran" into a new store returns, and the
    store then holds a word that is not lowercase, on which
    [delete_entry], which case-folds its argument, has no effect. *)
Theorem import_dictionary_keeps_capitals :
  ∃ s', import_dictionary capital_payload "merge" fresh_store = (Returned (), s') ∧
        reachable Text.lower s' ∧
        word <$> dictionary s' = ["Kaneran"]%string ∧
        ¬ Text.is_lower "Kaneran" ∧
        delete_entry Text.lower "Kaneran" None s' = (Returned (), s').
Proof.
  eexists. split; [vm_compute; reflexivity|]. split_and!.
  - eapply rtc_once.
    exact (step_import_dictionary Text.lower fresh_store capital_payload "merge").
  - reflexivity.
  - unfold Text.is_lower. discriminate.
  - vm_compute. reflexivity.
Qed.

(** ** Entries: delete *)

Lemma delete_entry_sense_fits lower s w n :
  Sql.fits_int64 n →
  delete_entry lower w (Some n) s =
  (Returned (),
   set_dictionary (filter (λ r, ¬ Sql.matches_word_sense (lower w) n r)) s).
Proof.
  intros Hn. unfold delete_entry. eapply with_conn_returned.
  unfold Sql.execute_delete_word_sense, mbind, conn_bind.
  by rewrite bind_int_fits.
Qed.

Lemma length_filter_split {A} (P : A → Prop) `{!∀ x, Decision (P x)} (l : list A) :
  length l = (length (filter (λ x, ¬ P x) l) + length (filter P l))%nat.
Proof.
  rewrite <- (filter_app_complement P l) at 1. rewrite length_app. lia.
Qed.

(** C2, as the code has it.  [delete_entry w (Some n)] returns and
    removes the rows whose word is the case fold of [w] and whose sense
    number is [n]: all of them, whatever their category and part of
    speech, so as many rows go as match.  Every other row stays as it
    was and in place, and the other tables are untouched. *)
Theorem delete_entry_sense_removes_matching lower s w n :
  Sql.fits_int64 n →
  ∃ s',
    delete_entry lower w (Some n) s = (Returned (), s') ∧
    dictionary s' =
      filter (λ r, ¬ (word r = lower w ∧ sense_number r = n)) (dictionary s) ∧
    (∀ r, r ∈ dictionary s' ↔
          r ∈ dictionary s ∧ ¬ (word r = lower w ∧ sense_number r = n)) ∧
    length (dictionary s) =
      (length (dictionary s') +
       length (filter (λ r, word r = lower w ∧ sense_number r = n)
                      (dictionary s)))%nat ∧
    contexts s' = contexts s ∧ settings s' = settings s.
Proof.
  intros Hn. eexists. split; [by apply delete_entry_sense_fits|].
  simpl. split_and!; try done.
  - intros r. rewrite list_elem_of_filter. unfold Sql.matches_word_sense. tauto.
  - apply (length_filter_split (Sql.matches_word_sense (lower w) n)).
Qed.

Lemma delete_entry_sense_removes_matching_witness :
  Sql.fits_int64 1 ∧
  ∃ s',
    delete_entry Text.lower "Kaneran" (Some 1) two_categories = (Returned (), s') ∧
    dictionary s' =
      filter (λ r, ¬ (word r = Text.lower "Kaneran" ∧ sense_number r = 1))
             (dictionary two_categories) ∧
    (∀ r, r ∈ dictionary s' ↔
          r ∈ dictionary two_categories ∧
          ¬ (word r = Text.lower "Kaneran" ∧ sense_number r = 1)) ∧
    length (dictionary two_categories) =
      (length (dictionary s') +
       length (filter (λ r, word r = Text.lower "Kaneran" ∧ sense_number r = 1%Z)
                      (dictionary two_categories)))%nat ∧
    contexts s' = contexts two_categories ∧ settings s' = settings two_categories.
Proof.
  split; [exact I|].
  exact (delete_entry_sense_removes_matching Text.lower two_categories "Kaneran" 1 I).
Defined.

(** C2, as stated, fails where one word has sense 1 under two
    categories: of the three rows of [two_categories], deleting
    ("kaneran", 1) removes two, the sense 1 of each category. *)
Lemma delete_entry_sense_removes_two_rows :
  dictionary two_categories =
    [Entry "kaneran" "Species" "Noun" "An alien species." "Sci-fi context" 1;
     Entry "kaneran" "Planet" "Noun" "A ringed world." "Astronomy" 1;
     Entry "kaneran" "Species" "Noun" "A constellation." "Astronomy" 2] ∧
  ∃ s', delete_entry Text.lower "kaneran" (Some 1) two_categories = (Returned (), s') ∧
        dictionary s' =
          [Entry "kaneran" "Species" "Noun" "A constellation." "Astronomy" 2] ∧
        (length (dictionary s') + 1)%nat ≠ length (dictionary two_categories).
Proof.
  split; [vm_compute; reflexivity|].
  eexists. split; [vm_compute; reflexivity|]. split; [reflexivity|].
  vm_compute. discriminate.
Qed.

(** ** Import of entries *)

Lemma import_entry_malformed e s :
  malformed e → ∃ k, import_entry e s = (Raised (KeyError k), s).
Proof.
  destruct e as [[w|] [c|] [pos|] [d|] [x|] n]; unfold malformed; simpl;
    intros H; try (eexists; reflexivity);
    destruct H as [H|[H|[H|[H|H]]]]; discriminate.
Qed.

Lemma import_entry_row e r s :
  payload_row e = Some r → Sql.fits_int64 (sense_number r) →
  import_entry e s = (Returned (), set_dictionary (Sql.insert_or_replace r) s).
Proof.
  destruct e as [[w|] [c|] [pos|] [d|] [x|] n]; try done.
  intros [= <-] Hn. simpl in Hn.
  unfold import_entry; simpl. unfold mbind at 1 2 3 4 5, conn_bind; simpl.
  by rewrite execute_insert_or_replace_fits.
Qed.

Lemma well_formed_row e :
  well_formed e →
  ∃ r, payload_row e = Some r ∧ Sql.fits_int64 (sense_number r) ∧
       payload_key e = (Some (word r), Some (category r),
                        Some (part_of_speech r), sense_number r).
Proof.
  intros [Hm Hn]. unfold malformed in Hm.
  destruct e as [[w|] [c|] [pos|] [d|] [x|] n]; simpl in *; try tauto.
  eexists. split; [reflexivity|]. done.
Qed.

(** Rows with new, pairwise different keys are appended in the order of
    the payload. *)
Lemma for_each_import_new data rows s :
  Forall2 (λ e r, payload_row e = Some r) data rows →
  Forall (λ r, Sql.fits_int64 (sense_number r)) rows →
  NoDup (unique_key <$> (dictionary s ++ rows)) →
  for_each import_entry data s = (Returned (), set_dictionary (λ d, d ++ rows) s).
Proof.
  intros H. revert s. induction H as [|e r data rows He _ IH]; intros s Hfits Hnd.
  - simpl. unfold set_dictionary. rewrite app_nil_r. by destruct s.
  - apply Forall_cons in Hfits as [Hr Hfits].
    rewrite for_each_cons, (import_entry_row e r) by done.
    rewrite IH; [| done |].
    + unfold set_dictionary; simpl.
      rewrite insert_or_replace_new.
      * by rewrite <- app_assoc.
      * rewrite fmap_app, fmap_cons in Hnd.
        apply NoDup_app in Hnd as (_ & Hdisj & _).
        intros Hin. apply (Hdisj _ Hin). left.
    + simpl. rewrite insert_or_replace_new.
      * by rewrite <- app_assoc.
      * rewrite fmap_app, fmap_cons in Hnd.
        apply NoDup_app in Hnd as (_ & Hdisj & _).
        intros Hin. apply (Hdisj _ Hin). left.
Qed.

(** C4. When some mapping of the payload lacks one of the five keys that
    [import_dictionary] subscripts, the call raises, in either mode, and
    the store is the one it started from: no row of the payload is
    written and, under "replace", no earlier row is lost. *)
Theorem import_dictionary_malformed_aborts data mode s :
  Exists malformed data → ∃ e, import_dictionary data mode s = (Raised e, s).
Proof.
  intros H. unfold import_dictionary.
  set (purge := if String.eqb mode "replace" then _ else _).
  assert (∃ e s', (purge;; for_each import_entry data) s = (Raised e, s'))
    as (e & s' & Hbody).
  { unfold mbind, conn_bind.
    destruct (purge s) as [[u|e] s0]; [|eauto].
    apply for_each_raised. eapply Exists_impl; [exact H|].
    intros e He s1. destruct (import_entry_malformed e s1 He) as [k Hk]. eauto. }
  exists e. by eapply with_conn_raised.
Qed.

Lemma import_dictionary_malformed_aborts_witness :
  Exists malformed broken_payload ∧
  ∃ e, import_dictionary broken_payload "replace" two_categories
       = (Raised e, two_categories).
Proof.
  assert (H : Exists malformed broken_payload).
  { apply Exists_cons_tl, Exists_cons_hd. right; right; right; left. reflexivity. }
  split; [exact H|].
  exact (import_dictionary_malformed_aborts broken_payload "replace" two_categories H).
Defined.

Lemma well_formed_rows data :
  Forall well_formed data →
  ∃ rows, Forall2 (λ e r, payload_row e = Some r) data rows ∧
          Forall (λ r, Sql.fits_int64 (sense_number r)) rows ∧
          payload_key <$> data =
            (λ r, (Some (word r), Some (category r),
                   Some (part_of_speech r), sense_number r)) <$> rows.
Proof.
  induction 1 as [|e data He _ (rows & H2 & Hfits & Hkeys)].
  - exists []. split_and!; constructor.
  - destruct (well_formed_row e He) as (r & Hr & Hn & Hk).
    exists (r :: rows). split_and!; [by constructor..|].
    rewrite !fmap_cons. by f_equal.
Qed.

(** C7. Importing, in "replace" mode, a payload of well-formed mappings
    with pairwise different (word, category, part of speech, sense)
    returns and leaves exactly as many rows as the payload has mappings,
    whatever rows the store held before: they are the payload's rows,
    in its order. *)
Theorem import_replace_row_count data s :
  Forall well_formed data →
  NoDup (payload_key <$> data) →
  ∃ s', import_dictionary data "replace" s = (Returned (), s') ∧
        length (dictionary s') = length data ∧
        Some <$> dictionary s' = payload_row <$> data.
Proof.
  intros Hwf Hnd.
  destruct (well_formed_rows data Hwf) as (rows & H2 & Hfits & Hkeys).
  exists (set_dictionary (λ _, rows) s). split_and!.
  - unfold import_dictionary. eapply with_conn_returned. simpl.
    unfold mbind, conn_bind; simpl.
    rewrite (for_each_import_new data rows); [done..|].
    simpl. rewrite Hkeys in Hnd.
    eapply (NoDup_fmap_1 (λ k : string * string * string * Z,
              (Some k.1.1.1, Some k.1.1.2, Some k.1.2, k.2))).
    by rewrite <- list_fmap_compose.
  - simpl. symmetry. by eapply Forall2_length.
  - simpl. clear -H2. induction H2 as [|e r data rows He _ IH]; [done|].
    rewrite !fmap_cons. by f_equal.
Qed.

Lemma import_replace_row_count_witness :
  Forall well_formed two_entry_payload ∧
  NoDup (payload_key <$> two_entry_payload) ∧
  ∃ s', import_dictionary two_entry_payload "replace" two_categories
          = (Returned (), s') ∧
        length (dictionary s') = length two_entry_payload ∧
        Some <$> dictionary s' = payload_row <$> two_entry_payload.
Proof.
  assert (Hwf : Forall well_formed two_entry_payload).
  { repeat apply List.Forall_cons; try apply List.Forall_nil;
      (split; [intros [H|[H|[H|[H|H]]]]; discriminate | exact I]). }
  assert (Hnd : NoDup (payload_key <$> two_entry_payload)).
  { apply (bool_decide_unpack _). vm_compute. exact I. }
  split; [exact Hwf|]. split; [exact Hnd|].
  exact (import_replace_row_count two_entry_payload two_categories Hwf Hnd).
Defined.

(** ** Export, then import *)

Lemma fresh_store_tables : fresh_store = Db [] default_contexts ∅.
Proof. vm_compute. reflexivity. Qed.

Lemma payload_row_export (rows : list entry) :
  Forall2 (λ e r, payload_row e = Some r)
    ((λ row, EntryDict (Some (word row)) (Some (category row))
                       (Some (part_of_speech row)) (Some (definition row))
                       (Some (context_hint row)) (Some (sense_number row)))
       <$> rows)
    rows.
Proof. induction rows as [|[] rows IH]; constructor; done. Qed.

Lemma get_all_entries_perm s : get_all_entries s ≡ₚ dictionary s.
Proof. apply merge_sort_Permutation. Qed.

(** C1. Exporting the entries of a store and importing the result, in
    "merge" mode, into a new store returns, and the new store's rows are
    the rows of the original: the same rows with the same six fields,
    each as often as in the original (once), in the order of the
    export. *)
Theorem export_import_round_trip s :
  store_ok s →
  ∃ s', import_dictionary (export_dictionary s) "merge" fresh_store
          = (Returned (), s') ∧
        dictionary s' ≡ₚ dictionary s ∧
        dictionary s' = get_all_entries s.
Proof.
  intros [Hnd Hfits _].
  exists (set_dictionary (λ d, d ++ get_all_entries s) fresh_store).
  split_and!.
  - unfold import_dictionary. eapply with_conn_returned. simpl.
    unfold mbind, conn_bind; simpl.
    apply for_each_import_new.
    + apply payload_row_export.
    + by rewrite get_all_entries_perm.
    + rewrite fresh_store_tables. simpl. by rewrite get_all_entries_perm.
  - rewrite fresh_store_tables. simpl. apply get_all_entries_perm.
  - by rewrite fresh_store_tables.
Qed.

Lemma two_categories_ok : store_ok two_categories.
Proof.
  split.
  - apply (bool_decide_unpack _). vm_compute. exact I.
  - apply (bool_decide_unpack _). vm_compute. exact I.
  - apply (bool_decide_unpack _). vm_compute. exact I.
Defined.

Lemma export_import_round_trip_witness :
  store_ok two_categories ∧
  ∃ s', import_dictionary (export_dictionary two_categories) "merge" fresh_store
          = (Returned (), s') ∧
        dictionary s' ≡ₚ dictionary two_categories ∧
        dictionary s' = get_all_entries two_categories.
Proof.
  split; [exact two_categories_ok|].
  exact (export_import_round_trip two_categories two_categories_ok).
Defined.

(** ** Contexts *)

Lemma count_NoDup (name : string) (rows : list string) :
  NoDup rows → name ∈ rows → length (filter (λ n, n = name) rows) = 1%nat.
Proof.
  induction 1 as [|n rows Hn Hnd IH]; intros Hin; [by apply elem_of_nil in Hin|].
  destruct (decide (n = name)) as [->|Hne].
  - rewrite filter_cons_True by done. simpl. f_equal.
    apply length_zero_iff_nil. clear -Hn.
    induction rows as [|n' rows IH]; [done|].
    apply not_elem_of_cons in Hn as [Hne Hn].
    rewrite filter_cons_False by done. auto.
  - rewrite filter_cons_False by done.
    apply elem_of_cons in Hin as [->|Hin]; [done|]. auto.
Qed.

Lemma insert_or_ignore_elem name rows : name ∈ Sql.insert_or_ignore name rows.
Proof.
  unfold Sql.insert_or_ignore. case_decide; [done|].
  apply elem_of_app. right. by apply list_elem_of_singleton.
Qed.

Lemma insert_or_ignore_mono name n rows :
  n ∈ rows → n ∈ Sql.insert_or_ignore name rows.
Proof.
  unfold Sql.insert_or_ignore. case_decide; [done|].
  intros. apply elem_of_app. by left.
Qed.

Lemma insert_or_ignore_present name rows :
  name ∈ rows → Sql.insert_or_ignore name rows = rows.
Proof. unfold Sql.insert_or_ignore. by case_decide. Qed.

Lemma insert_or_ignore_NoDup name rows :
  NoDup rows → NoDup (Sql.insert_or_ignore name rows).
Proof.
  unfold Sql.insert_or_ignore. case_decide; [done|].
  intros Hnd. apply NoDup_app. split_and!; [done| |apply NoDup_singleton].
  intros n Hn ->%list_elem_of_singleton. done.
Qed.

Lemma set_contexts_present name s :
  name ∈ contexts s → set_contexts (Sql.insert_or_ignore name) s = s.
Proof.
  intros H. unfold set_contexts. rewrite insert_or_ignore_present by done.
  by destruct s.
Qed.

Lemma add_context_eq name s :
  add_context name s = (Returned (), set_contexts (Sql.insert_or_ignore name) s).
Proof. reflexivity. Qed.

Lemma add_names_tables names s :
  dictionary (add_names names s) = dictionary s ∧
  settings (add_names names s) = settings s.
Proof.
  revert s. induction names as [|n names IH]; intros s; [done|].
  simpl. destruct (IH (set_contexts (Sql.insert_or_ignore n) s)) as [-> ->]. done.
Qed.

Lemma add_names_mono names n s :
  n ∈ contexts s → n ∈ contexts (add_names names s).
Proof.
  revert s. induction names as [|n' names IH]; intros s Hn; [done|].
  simpl. apply IH. simpl. by apply insert_or_ignore_mono.
Qed.

Lemma add_names_elem names n s :
  n ∈ names → n ∈ contexts (add_names names s).
Proof.
  revert s. induction names as [|n' names IH]; intros s Hn;
    [by apply elem_of_nil in Hn|].
  apply elem_of_cons in Hn as [->|Hn]; simpl.
  - apply add_names_mono. simpl. apply insert_or_ignore_elem.
  - by apply IH.
Qed.

Lemma add_names_NoDup names s :
  NoDup (contexts s) → NoDup (contexts (add_names names s)).
Proof.
  revert s. induction names as [|n names IH]; intros s Hnd; [done|].
  simpl. apply IH. simpl. by apply insert_or_ignore_NoDup.
Qed.

(** Names that are all there already leave the table as it is. *)
Lemma add_names_present names s :
  Forall (λ n, n ∈ contexts s) names → add_names names s = s.
Proof.
  induction 1 as [|n names Hn _ IH]; [done|].
  simpl. by rewrite set_contexts_present.
Qed.

Lemma for_each_insert_or_ignore names s :
  for_each Sql.execute_insert_or_ignore_context names s
    = (Returned (), add_names names s).
Proof.
  apply (for_each_returned _
           (λ s0 name, set_contexts (Sql.insert_or_ignore name) s0)).
  by apply Forall_forall.
Qed.

Lemma _prepopulate_contexts_eq s :
  _prepopulate_contexts s = (Returned (), add_names default_contexts s).
Proof.
  unfold _prepopulate_contexts.
  eapply with_conn_returned, for_each_insert_or_ignore.
Qed.

Lemma for_each_import_context data names s :
  Forall2 (λ e n, d_name e = Some n) data names →
  for_each import_context data s = (Returned (), add_names names s).
Proof.
  intros H. revert s. induction H as [|[o] n data names He _ IH]; intros s; [done|].
  simpl in He. subst o. rewrite for_each_cons. simpl.
  unfold import_context at 1; simpl.
  unfold mbind at 1, conn_bind; simpl. apply IH.
Qed.

Lemma import_contexts_merge data names s :
  Forall2 (λ e n, d_name e = Some n) data names →
  import_contexts data "merge" s = (Returned (), add_names names s).
Proof.
  intros H. unfold import_contexts. eapply with_conn_returned. simpl.
  unfold mbind at 1, conn_bind; simpl. by apply for_each_import_context.
Qed.

(** C9. On a store that satisfies its constraints, a context added a
    second time changes nothing and raises nothing, and its name is in
    the table exactly once.  This holds for [add_context], for the
    seeding of the defaults by [_prepopulate_contexts], and for
    [import_contexts] in "merge" mode, whether the name is repeated
    within the payload or the payload is imported again. *)
Theorem add_context_twice s name data :
  store_ok s →
  Forall (λ e, is_Some (d_name e)) data →
  (∃ s1, add_context name s = (Returned (), s1) ∧
         add_context name s1 = (Returned (), s1) ∧
         length (filter (λ n, n = name) (contexts s1)) = 1%nat) ∧
  (∃ s1, _prepopulate_contexts s = (Returned (), s1) ∧
         _prepopulate_contexts s1 = (Returned (), s1) ∧
         ∀ d, d ∈ default_contexts →
              length (filter (λ n, n = d) (contexts s1)) = 1%nat) ∧
  (∃ s1, import_contexts data "merge" s = (Returned (), s1) ∧
         import_contexts data "merge" s1 = (Returned (), s1) ∧
         ∀ e, e ∈ data →
              length (filter (λ n, Some n = d_name e) (contexts s1)) = 1%nat).
Proof.
  intros [_ _ Hnd] Hdata. split_and!.
  - eexists. split; [apply add_context_eq|]. split.
    + rewrite add_context_eq. f_equal. apply set_contexts_present.
      simpl. apply insert_or_ignore_elem.
    + simpl. apply count_NoDup.
      * by apply insert_or_ignore_NoDup.
      * apply insert_or_ignore_elem.
  - eexists. split; [apply _prepopulate_contexts_eq|]. split.
    + rewrite _prepopulate_contexts_eq. f_equal. apply add_names_present.
      apply Forall_forall. intros d Hd. by apply add_names_elem.
    + intros d Hd. apply count_NoDup.
      * by apply add_names_NoDup.
      * by apply add_names_elem.
  - assert (∃ names, Forall2 (λ e n, d_name e = Some n) data names)
      as [names Hnames].
    { clear -Hdata. induction Hdata as [|e data [n Hn] _ [names IH]].
      - by exists [].
      - exists (n :: names). by constructor. }
    exists (add_names names s). split; [by apply import_contexts_merge|]. split.
    + rewrite (import_contexts_merge data names) by done. f_equal.
      apply add_names_present. apply Forall_forall. intros n Hn.
      by apply add_names_elem.
    + intros e He.
      destruct (proj1 (list_elem_of_lookup _ _) He) as [i Hi].
      destruct (Forall2_lookup_l _ _ _ _ _ Hnames Hi) as (n & Hn & Hen).
      rewrite Hen.
      erewrite (list_filter_iff _ (λ n', n' = n)); [|intros n'; naive_solver].
      apply count_NoDup.
      * by apply add_names_NoDup.
      * apply add_names_elem. by eapply list_elem_of_lookup_2.
Qed.

Lemma fresh_store_ok : store_ok fresh_store.
Proof.
  rewrite fresh_store_tables. split; simpl.
  - constructor.
  - constructor.
  - apply (bool_decide_unpack _). vm_compute. exact I.
Defined.

Lemma add_context_twice_witness :
  store_ok fresh_store ∧
  Forall (λ e, is_Some (d_name e)) repeated_contexts ∧
  (∃ s1, add_context "Galaxy" fresh_store = (Returned (), s1) ∧
         add_context "Galaxy" s1 = (Returned (), s1) ∧
         length (filter (λ n, n = "Galaxy"%string) (contexts s1)) = 1%nat) ∧
  (∃ s1, _prepopulate_contexts fresh_store = (Returned (), s1) ∧
         _prepopulate_contexts s1 = (Returned (), s1) ∧
         ∀ d, d ∈ default_contexts →
              length (filter (λ n, n = d) (contexts s1)) = 1%nat) ∧
  (∃ s1, import_contexts repeated_contexts "merge" fresh_store = (Returned (), s1) ∧
         import_contexts repeated_contexts "merge" s1 = (Returned (), s1) ∧
         ∀ e, e ∈ repeated_contexts →
              length (filter (λ n, Some n = d_name e) (contexts s1)) = 1%nat).
Proof.
  assert (Hdata : Forall (λ e, is_Some (d_name e)) repeated_contexts).
  { repeat apply List.Forall_cons; try apply List.Forall_nil; by eexists. }
  split; [exact fresh_store_ok|]. split; [exact Hdata|].
  exact (add_context_twice fresh_store "Galaxy" repeated_contexts
           fresh_store_ok Hdata).
Defined.

(** *** Rename *)

Lemma update_name_absent new old before after :
  old ∉ after → Sql.update_name new old before after = Some (before ++ after).
Proof.
  revert before. induction after as [|n rest IH]; intros before Hold; simpl.
  - by rewrite app_nil_r.
  - apply not_elem_of_cons in Hold as [Hne Hold].
    rewrite decide_False by done. rewrite IH by done. by rewrite <- app_assoc.
Qed.

Lemma update_name_conflict new old before after :
  old ∈ after → new ≠ old → new ∈ before ∨ new ∈ after →
  Sql.update_name new old before after = None.
Proof.
  revert before. induction after as [|n rest IH]; intros before Hold Hne Hnew.
  - by apply elem_of_nil in Hold.
  - simpl. destruct (decide (n = old)) as [->|Hn].
    + rewrite decide_True; [done|].
      destruct Hnew as [?|[?|?]%elem_of_cons]; [by left|done|by right].
    + apply elem_of_cons in Hold as [->|Hold]; [done|].
      apply IH; [done..|].
      rewrite elem_of_app, list_elem_of_singleton.
      destruct Hnew as [?|[?|?]%elem_of_cons]; tauto.
Qed.

Lemma rename_context_tables s old new :
  dictionary (rename_context old new s).2 = dictionary s ∧
  settings (rename_context old new s).2 = settings s.
Proof.
  unfold rename_context, with_conn, Sql.execute_update_context.
  by destruct (Sql.update_name new old [] (contexts s)).
Qed.

(** C8. [rename_context] leaves every row of [dictionary] as it was (a
    [context_hint] that spells the old name keeps spelling it) and every
    setting too, whether the rename returns or raises; and when no
    context has the old name the call returns and the store is
    unchanged. *)
Theorem rename_context_frame s old new :
  dictionary (rename_context old new s).2 = dictionary s ∧
  settings (rename_context old new s).2 = settings s ∧
  (old ∉ contexts s → rename_context old new s = (Returned (), s)).
Proof.
  destruct (rename_context_tables s old new) as [Hd Hs].
  split_and!; [done..|].
  intros Hold. unfold rename_context, with_conn, Sql.execute_update_context.
  rewrite update_name_absent by done. simpl. by destruct s.
Qed.

Lemma rename_context_frame_witness :
  ("Galaxy"%string ∉ contexts two_categories) ∧
  dictionary (rename_context "Galaxy" "Universe" two_categories).2
    = dictionary two_categories ∧
  settings (rename_context "Galaxy" "Universe" two_categories).2
    = settings two_categories ∧
  rename_context "Galaxy" "Universe" two_categories = (Returned (), two_categories).
Proof.
  assert (H : "Galaxy"%string ∉ contexts two_categories).
  { apply (bool_decide_unpack _). vm_compute. exact I. }
  pose proof (rename_context_frame two_categories "Galaxy" "Universe") as (Hd & Hs & Hr).
  split; [exact H|]. split; [exact Hd|]. split; [exact Hs|]. exact (Hr H).
Defined.

(** C10. On a store that satisfies its constraints, renaming a context
    to the name of another context raises the violation of
    [UNIQUE(name)] and leaves the store as it was: the old name is still
    there and the new name is still there once. *)
Theorem rename_context_onto_existing s old new :
  store_ok s → old ∈ contexts s → new ∈ contexts s → old ≠ new →
  rename_context old new s = (Raised (IntegrityError "contexts.name"), s) ∧
  old ∈ contexts (rename_context old new s).2 ∧
  length (filter (λ n, n = new) (contexts (rename_context old new s).2)) = 1%nat.
Proof.
  intros [_ _ Hnd] Hold Hnew Hne.
  assert (rename_context old new s = (Raised (IntegrityError "contexts.name"), s))
    as ->.
  { unfold rename_context, with_conn, Sql.execute_update_context.
    rewrite update_name_conflict; [done..|by right]. }
  split_and!; [done..|]. simpl. by apply count_NoDup.
Qed.

Lemma rename_context_onto_existing_witness :
  store_ok fresh_store ∧
  "Species"%string ∈ contexts fresh_store ∧
  "Planet"%string ∈ contexts fresh_store ∧
  "Species"%string ≠ "Planet"%string ∧
  rename_context "Species" "Planet" fresh_store
    = (Raised (IntegrityError "contexts.name"), fresh_store) ∧
  "Species"%string ∈ contexts (rename_context "Species" "Planet" fresh_store).2 ∧
  length (filter (λ n, n = "Planet"%string)
                 (contexts (rename_context "Species" "Planet" fresh_store).2)) = 1%nat.
Proof.
  assert (H1 : "Species"%string ∈ contexts fresh_store).
  { apply (bool_decide_unpack _). vm_compute. exact I. }
  assert (H2 : "Planet"%string ∈ contexts fresh_store).
  { apply (bool_decide_unpack _). vm_compute. exact I. }
  assert (H3 : "Species"%string ≠ "Planet"%string) by discriminate.
  split; [exact fresh_store_ok|]. split; [exact H1|]. split; [exact H2|].
  split; [exact H3|].
  exact (rename_context_onto_existing fresh_store "Species" "Planet"
           fresh_store_ok H1 H2 H3).
Defined.

(** ** The constraints hold in every reachable store *)

Section Invariant.

Implicit Types (s : db).

Lemma with_conn_preserves (P : db → Prop) (body : conn ()) s :
  P s → P (body s).2 → P (with_conn body s).2.
Proof. unfold with_conn. by destruct (body s) as [[u|e] s']. Qed.

Lemma for_each_preserves {A} (P : db → Prop) (f : A → conn ()) (l : list A) :
  (∀ x s0, P s0 → P (f x s0).2) → ∀ s, P s → P (for_each f l s).2.
Proof.
  intros Hf. induction l as [|x l IH]; intros s Hs; [done|].
  rewrite for_each_cons. specialize (Hf x s Hs).
  destruct (f x s) as [[u|e] s']; simpl in *; auto.
Qed.

Lemma NoDup_fmap_filter {A B} (f : A → B) (P : A → Prop)
    `{!∀ x, Decision (P x)} (l : list A) :
  NoDup (f <$> l) → NoDup (f <$> filter P l).
Proof.
  induction l as [|x l IH]; [done|].
  rewrite fmap_cons, NoDup_cons. intros [Hx Hnd].
  destruct (decide (P x)).
  - rewrite filter_cons_True by done. rewrite fmap_cons. constructor; [|auto].
    rewrite list_elem_of_fmap. intros (y & Hy & [_ Hin]%list_elem_of_filter).
    apply Hx. rewrite list_elem_of_fmap. eauto.
  - rewrite filter_cons_False by done. auto.
Qed.

Lemma Forall_filter_keep {A} (Q P : A → Prop) `{!∀ x, Decision (P x)} (l : list A) :
  Forall Q l → Forall Q (filter P l).
Proof.
  rewrite !Forall_forall. intros HQ x [_ Hin]%list_elem_of_filter. auto.
Qed.

Lemma filter_dictionary_ok (P : entry → Prop) `{!∀ r, Decision (P r)} s :
  store_ok s → store_ok (set_dictionary (filter P) s).
Proof.
  intros [Hnd Hfits Hnames]. split; simpl; [| |done].
  - by apply NoDup_fmap_filter.
  - by apply Forall_filter_keep.
Qed.

Lemma execute_insert_or_replace_ok w c p d x n s :
  store_ok s → store_ok (Sql.execute_insert_or_replace w c p d x n s).2.
Proof.
  intros Hs. destruct (decide (Sql.fits_int64 n)) as [Hn|Hn].
  - rewrite execute_insert_or_replace_fits by done.
    destruct Hs as [Hnd Hfits Hnames]. split; simpl; [| |done].
    + by apply insert_or_replace_unique.
    + by apply insert_or_replace_int64.
  - by rewrite execute_insert_or_replace_overflow.
Qed.

Lemma import_entry_ok e s : store_ok s → store_ok (import_entry e s).2.
Proof.
  intros Hs. destruct e as [[w|] [c|] [pos|] [d|] [x|] n]; try done.
  apply (execute_insert_or_replace_ok w c pos d x (default 1 n) s Hs).
Qed.

Lemma update_name_NoDup new old before after rows :
  NoDup (before ++ after) →
  Sql.update_name new old before after = Some rows → NoDup rows.
Proof.
  revert before. induction after as [|n rest IH]; intros before Hnd; simpl.
  - intros [= <-]. by rewrite app_nil_r in Hnd.
  - destruct (decide (n = old)) as [->|Hn].
    + case_decide as Hnew; [done|]. apply IH.
      rewrite <- app_assoc. simpl.
      apply NoDup_app in Hnd as (Hb & Hdisj & [Hold Hr]%NoDup_cons).
      apply NoDup_app. split_and!; [done| |].
      * intros y Hy [->|Hin]%elem_of_cons; [tauto|].
        apply (Hdisj y Hy). by right.
      * constructor; [tauto|done].
    + apply IH. by rewrite <- app_assoc.
Qed.

Lemma contexts_ok (rows : list string) s :
  NoDup rows → store_ok s → store_ok (set_contexts (λ _, rows) s).
Proof. intros Hrows [Hnd Hfits _]. by split. Qed.

Lemma add_names_ok names s : store_ok s → store_ok (add_names names s).
Proof.
  intros [Hnd Hfits Hnames].
  destruct (add_names_tables names s) as [Hd _].
  split; rewrite ?Hd; [done..|]. by apply add_names_NoDup.
Qed.

Lemma import_context_ok e s : store_ok s → store_ok (import_context e s).2.
Proof.
  intros Hs. destruct e as [[n|]]; [|done].
  apply (add_names_ok [n] s Hs).
Qed.

(** Every call keeps the constraints. *)
Lemma step_ok lower s s' : store_ok s → step lower s s' → store_ok s'.
Proof.
  intros Hs. destruct 1.
  - apply (with_conn_preserves store_ok); [done|].
    by apply execute_insert_or_replace_ok.
  - apply (with_conn_preserves store_ok); [done|].
    apply (for_each_preserves store_ok); [|done].
    intros [[[pos d] x] n] s0 Hs0. by apply execute_insert_or_replace_ok.
  - apply (with_conn_preserves store_ok); [done|].
    destruct sense as [n|].
    + unfold Sql.execute_delete_word_sense, mbind, conn_bind.
      destruct (decide (Sql.fits_int64 n)) as [Hn|Hn].
      * rewrite bind_int_fits by done. by apply filter_dictionary_ok.
      * by rewrite bind_int_overflow.
    + by apply filter_dictionary_ok.
  - rewrite add_context_eq. apply (add_names_ok [name] s Hs).
  - apply (with_conn_preserves store_ok); [done|].
    destruct Hs as [Hnd Hfits Hnames]. split; [done..|].
    by apply NoDup_filter.
  - apply (with_conn_preserves store_ok); [done|].
    unfold Sql.execute_update_context.
    destruct (Sql.update_name new old [] (contexts s)) as [rows|] eqn:E; [|done].
    apply contexts_ok; [|done].
    eapply update_name_NoDup; [|exact E]. by destruct Hs.
  - apply (with_conn_preserves store_ok); [done|].
    by destruct Hs.
  - apply (with_conn_preserves store_ok); [done|].
    unfold mbind, conn_bind.
    destruct (String.eqb mode "replace"); simpl.
    + apply (for_each_preserves store_ok); [apply import_entry_ok|].
      destruct Hs as [Hnd Hfits Hnames]. split; simpl; [constructor..|done].
    + by apply (for_each_preserves store_ok); [apply import_entry_ok|].
  - apply (with_conn_preserves store_ok); [done|].
    unfold mbind, conn_bind.
    destruct (String.eqb mode "replace"); simpl.
    + apply (for_each_preserves store_ok); [apply import_context_ok|].
      apply contexts_ok; [constructor|done].
    + by apply (for_each_preserves store_ok); [apply import_context_ok|].
  - rewrite _prepopulate_contexts_eq. by apply add_names_ok.
Qed.

(** X10. The constraints of the schema hold in every store that calls of
    the class produce from a new one, when the calls have arguments of
    their annotated types and the payloads of the imports bind each key
    they carry to a value of its column's type, text or an integer, and
    none to null: no two rows share (word, category, part of speech,
    sense), every sense number fits 64 bits, and no two contexts share
    a name. *)
Lemma reachable_ok lower s : reachable lower s → store_ok s.
Proof.
  unfold reachable. intros H.
  eapply (rtc_ind_r store_ok fresh_store); [apply fresh_store_ok| |exact H].
  intros s0 s1 _ Hstep Hs0. by eapply step_ok.
Qed.

End Invariant.

(** ** The tests of test_db.py, on the model *)

Example test_add_and_get_single_entry :
  get_all_entries
    (add_entry Text.lower "kaneran" "Species" "Noun" "An alien species." "Sci-fi context" 1
       fresh_store).2
  = [Entry "kaneran" "Species" "Noun" "An alien species." "Sci-fi context" 1].
Proof. vm_compute. reflexivity. Qed.

Example test_add_multiple_meanings :
  sense_number <$>
    get_all_entries (add_multiple_entries Text.lower "kaneran" "Species" two_meanings fresh_store).2
  = [1; 2].
Proof. vm_compute. reflexivity. Qed.

Example test_delete_specific_meaning :
  sense_number <$>
    get_all_entries
      (delete_entry Text.lower "kaneran" (Some 1)
         (add_multiple_entries Text.lower "kaneran" "Species" two_meanings fresh_store).2).2
  = [2].
Proof. vm_compute. reflexivity. Qed.

Example test_delete_all_meanings :
  get_all_entries
    (delete_entry Text.lower "kaneran" None
       (add_multiple_entries Text.lower "kaneran" "Species" two_meanings fresh_store).2).2
  = [].
Proof. vm_compute. reflexivity. Qed.

Example test_contexts_management :
  let s1 := (add_context "Galaxy" fresh_store).2 in
  let s2 := (rename_context "Galaxy" "Universe" s1).2 in
  let s3 := (delete_context "Universe" s2).2 in
  bool_decide ("Galaxy"%string ∈ get_contexts s1) = true ∧
  bool_decide ("Universe"%string ∈ get_contexts s2) = true ∧
  bool_decide ("Galaxy"%string ∈ get_contexts s2) = false ∧
  bool_decide ("Universe"%string ∈ get_contexts s3) = false.
Proof. vm_compute. done. Qed.

Example test_export_and_import_dictionary :
  let exported :=
    export_dictionary
      (add_multiple_entries Text.lower "kaneran" "Species" two_meanings fresh_store).2 in
  length (get_all_entries (import_dictionary exported "merge" fresh_store).2) = 2%nat.
Proof. vm_compute. reflexivity. Qed.

(** * Further properties of the class *)

(** ** Entries *)

Lemma filter_all {A} (P : A → Prop) `{!∀ x, Decision (P x)} (l : list A) :
  Forall P l → filter P l = l.
Proof.
  induction 1 as [|x l Hx _ IH]; [done|].
  rewrite filter_cons_True by done. by rewrite IH.
Qed.

Lemma set_dictionary_same (rows : list entry) s :
  rows = dictionary s → set_dictionary (λ _, rows) s = s.
Proof. intros ->. by destruct s. Qed.

Lemma delete_entry_word_eq lower s w :
  delete_entry lower w None s =
  (Returned (), set_dictionary (filter (λ r, word r ≠ lower w)) s).
Proof. reflexivity. Qed.

Lemma get_words_list_elem s w :
  w ∈ get_words_list s ↔ ∃ r, r ∈ dictionary s ∧ word r = w.
Proof.
  unfold get_words_list. rewrite elem_of_remove_dups, list_elem_of_fmap.
  split; [intros (r & -> & Hin)|intros (r & Hin & <-)]; eauto.
Qed.

(** X1. Deleting by word alone returns, whatever the store holds, and
    takes the word, case-folded, out of the list of words: the words
    listed afterwards are the words listed before except that one,
    under whichever categories, parts of speech and senses it was
    stored.  Contexts and settings are untouched. *)
Theorem delete_entry_word_unlists lower s w :
  ∃ s', delete_entry lower w None s = (Returned (), s') ∧
        (∀ w', w' ∈ get_words_list s' ↔
               w' ∈ get_words_list s ∧ w' ≠ lower w) ∧
        (∀ r, r ∈ dictionary s' ↔ r ∈ dictionary s ∧ word r ≠ lower w) ∧
        contexts s' = contexts s ∧ settings s' = settings s.
Proof.
  eexists. split; [apply delete_entry_word_eq|]. split_and!; try done.
  - intros w'. rewrite !get_words_list_elem. simpl. split.
    + intros (r & [Hr Hin]%list_elem_of_filter & <-). eauto.
    + intros [(r & Hin & <-) Hne]. exists r. by rewrite list_elem_of_filter.
  - intros r. simpl. rewrite list_elem_of_filter. tauto.
Qed.

(** X2. A delete that matches no row is not an error and changes
    nothing: by word when no row has the case-folded word, by word and
    sense when no row has both. *)
Theorem delete_entry_absent_noop lower s w n :
  Sql.fits_int64 n →
  (Forall (λ r, word r ≠ lower w) (dictionary s) →
   delete_entry lower w None s = (Returned (), s)) ∧
  (Forall (λ r, ¬ (word r = lower w ∧ sense_number r = n)) (dictionary s) →
   delete_entry lower w (Some n) s = (Returned (), s)).
Proof.
  intros Hn. split; intros Hnone.
  - rewrite delete_entry_word_eq. f_equal. unfold set_dictionary.
    rewrite filter_all by done. by destruct s.
  - rewrite delete_entry_sense_fits by done. f_equal. unfold set_dictionary.
    rewrite filter_all by done. by destruct s.
Qed.

Lemma delete_entry_absent_noop_witness :
  Sql.fits_int64 3 ∧
  Forall (λ r, word r ≠ Text.lower "Orrin") (dictionary two_categories) ∧
  Forall (λ r, ¬ (word r = Text.lower "Kaneran" ∧ sense_number r = 3))
         (dictionary two_categories) ∧
  delete_entry Text.lower "Orrin" None two_categories = (Returned (), two_categories) ∧
  delete_entry Text.lower "Kaneran" (Some 3) two_categories = (Returned (), two_categories).
Proof.
  assert (H1 : Forall (λ r, word r ≠ Text.lower "Orrin") (dictionary two_categories)).
  { apply (bool_decide_unpack _). vm_compute. exact I. }
  assert (H2 : Forall (λ r, ¬ (word r = Text.lower "Kaneran" ∧ sense_number r = 3))
                      (dictionary two_categories)).
  { apply (bool_decide_unpack _). vm_compute. exact I. }
  split; [exact I|]. split; [exact H1|]. split; [exact H2|]. split.
  - exact (proj1 (delete_entry_absent_noop Text.lower two_categories "Orrin" 3 I) H1).
  - exact (proj2 (delete_entry_absent_noop Text.lower two_categories "Kaneran" 3 I) H2).
Defined.

(** X3. A sense number that does not fit 64 bits cannot be bound:
    [add_entry] and [delete_entry] raise [OverflowError] and the store
    is the one before the call. *)
Theorem sense_overflow_raises lower s w c pos d x n :
  ¬ Sql.fits_int64 n →
  add_entry lower w c pos d x n s = (Raised OverflowError, s) ∧
  delete_entry lower w (Some n) s = (Raised OverflowError, s).
Proof.
  intros Hn. split; [by apply add_entry_overflow|].
  unfold delete_entry. eapply with_conn_raised.
  unfold Sql.execute_delete_word_sense, mbind, conn_bind.
  by rewrite bind_int_overflow.
Qed.

Lemma sense_overflow_raises_witness :
  ¬ Sql.fits_int64 (2 ^ 63) ∧
  add_entry Text.lower "kaneran" "Species" "Noun" "An alien species." "Sci-fi context" (2 ^ 63)
            two_categories
    = (Raised OverflowError, two_categories) ∧
  delete_entry Text.lower "kaneran" (Some (2 ^ 63)) two_categories
    = (Raised OverflowError, two_categories).
Proof.
  assert (H : ¬ Sql.fits_int64 (2 ^ 63)) by (intros []).
  split; [exact H|].
  exact (sense_overflow_raises Text.lower two_categories "kaneran" "Species" "Noun"
           "An alien species." "Sci-fi context" (2 ^ 63) H).
Defined.

Lemma word_absent_key_absent (rows : list entry) (r : entry) :
  Forall (λ r', word r' ≠ word r) rows → unique_key r ∉ unique_key <$> rows.
Proof.
  rewrite Forall_forall. intros H (r' & Hk & Hin)%list_elem_of_fmap.
  apply (H r' Hin). unfold unique_key in Hk. congruence.
Qed.

(** X4. Adding a word the store does not have and then deleting it by
    word gives back the store as it was, and the two calls may spell
    the word in different cases. *)
Theorem add_then_delete_restores lower s w w' c pos d x n :
  Sql.fits_int64 n →
  lower w' = lower w →
  Forall (λ r, word r ≠ lower w) (dictionary s) →
  ∃ s1, add_entry lower w c pos d x n s = (Returned (), s1) ∧
        delete_entry lower w' None s1 = (Returned (), s).
Proof.
  intros Hn Hw Hnew. eexists. split; [by apply add_entry_fits|].
  rewrite delete_entry_word_eq, Hw. f_equal.
  unfold set_dictionary; simpl.
  rewrite insert_or_replace_new by by apply word_absent_key_absent.
  rewrite filter_app, filter_all by done.
  rewrite filter_cons_False by (simpl; tauto).
  rewrite filter_nil, app_nil_r. by destruct s.
Qed.

Lemma add_then_delete_restores_witness :
  Sql.fits_int64 1 ∧
  Text.lower "ORRIN" = Text.lower "Orrin" ∧
  Forall (λ r, word r ≠ Text.lower "Orrin") (dictionary two_categories) ∧
  ∃ s1, add_entry Text.lower "Orrin" "Planet" "Noun" "A ringed world." "Astronomy" 1
                  two_categories = (Returned (), s1) ∧
        delete_entry Text.lower "ORRIN" None s1 = (Returned (), two_categories).
Proof.
  assert (H : Forall (λ r, word r ≠ Text.lower "Orrin") (dictionary two_categories)).
  { apply (bool_decide_unpack _). vm_compute. exact I. }
  split; [exact I|]. split; [reflexivity|]. split; [exact H|].
  exact (add_then_delete_restores Text.lower two_categories "Orrin" "ORRIN" "Planet" "Noun"
           "A ringed world." "Astronomy" 1 I eq_refl H).
Defined.

Lemma count_key_NoDup (k : string * string * string * Z) (rows : list entry) :
  NoDup (unique_key <$> rows) → k ∈ unique_key <$> rows →
  length (filter (λ r, unique_key r = k) rows) = 1%nat.
Proof.
  induction rows as [|r rows IH]; [by intros _ ?%elem_of_nil|].
  rewrite fmap_cons, NoDup_cons. intros [Hr Hnd] Hin.
  destruct (decide (unique_key r = k)) as [<-|Hne].
  - rewrite filter_cons_True by done. simpl. f_equal.
    apply length_zero_iff_nil. clear -Hr.
    induction rows as [|r' rows IH]; [done|].
    rewrite fmap_cons in Hr. apply not_elem_of_cons in Hr as [Hne Hr].
    rewrite filter_cons_False by done. auto.
  - rewrite filter_cons_False by done.
    apply elem_of_cons in Hin as [->|Hin]; [done|]. auto.
Qed.

(** X5. An upsert touches one key.  [add_entry] with a sense number that
    can be bound returns; the rows under every other key are the same
    rows in the same order, contexts and settings are untouched, and on
    a store that satisfies its constraints the table grows by one row
    when the key is new and keeps its size when the key was there. *)
Theorem add_entry_frame lower s w c pos d x n :
  Sql.fits_int64 n → store_ok s →
  ∃ s', add_entry lower w c pos d x n s = (Returned (), s') ∧
        filter (λ r, unique_key r ≠ (lower w, c, pos, n)) (dictionary s')
          = filter (λ r, unique_key r ≠ (lower w, c, pos, n)) (dictionary s) ∧
        length (dictionary s') =
          (if decide ((lower w, c, pos, n) ∈ unique_key <$> dictionary s)
           then length (dictionary s) else S (length (dictionary s))) ∧
        contexts s' = contexts s ∧ settings s' = settings s.
Proof.
  intros Hn [Hnd _ _]. eexists. split; [by apply add_entry_fits|].
  simpl. unfold Sql.insert_or_replace. split_and!; try done.
  - rewrite filter_app, list_filter_filter.
    rewrite filter_cons_False by (simpl; tauto).
    rewrite filter_nil, app_nil_r. apply list_filter_iff. intros r. simpl. tauto.
  - rewrite length_app. simpl.
    pose proof (length_filter_split
                  (λ r, unique_key r = (lower w, c, pos, n)) (dictionary s))
      as Hlen.
    case_decide as Hk.
    + rewrite (count_key_NoDup _ _ Hnd Hk) in Hlen.
      change (unique_key (Entry (lower w) c pos d x n))
        with (lower w, c, pos, n). lia.
    + change (unique_key (Entry (lower w) c pos d x n))
        with (lower w, c, pos, n).
      rewrite filter_all; [lia|].
      apply Forall_forall. intros r Hr Heq. apply Hk.
      apply list_elem_of_fmap. eauto.
Qed.

Lemma add_entry_frame_witness :
  Sql.fits_int64 2 ∧ store_ok two_categories ∧
  ∃ s', add_entry Text.lower "Kaneran" "Species" "Noun" "A nebula." "Astronomy" 2 two_categories
          = (Returned (), s') ∧
        filter (λ r, unique_key r ≠ (Text.lower "Kaneran", "Species", "Noun", 2)%string)
               (dictionary s')
          = filter (λ r, unique_key r ≠ (Text.lower "Kaneran", "Species", "Noun", 2)%string)
                   (dictionary two_categories) ∧
        length (dictionary s') =
          (if decide ((Text.lower "Kaneran", "Species", "Noun", 2)%string
                        ∈ unique_key <$> dictionary two_categories)
           then length (dictionary two_categories)
           else S (length (dictionary two_categories))) ∧
        contexts s' = contexts two_categories ∧ settings s' = settings two_categories.
Proof.
  split; [exact I|]. split; [exact two_categories_ok|].
  exact (add_entry_frame Text.lower two_categories "Kaneran" "Species" "Noun" "A nebula."
           "Astronomy" 2 I two_categories_ok).
Defined.

(** *** Listing *)

Lemma compare_same (a : string) : String.compare a a = Eq.
Proof.
  pose proof (String.compare_antisym a a) as H.
  by destruct (String.compare a a).
Qed.

Lemma compare_Lt_le (a b : string) :
  String.compare a b = Lt ↔ String.le a b ∧ a ≠ b.
Proof.
  unfold String.le, String.leb. split.
  - intros H. rewrite H. split; [done|]. intros ->.
    by rewrite compare_same in H.
  - intros [Hle Hne]. destruct (String.compare a b) eqn:E; [|done..].
    by apply String.compare_eq_iff in E.
Qed.

Lemma entry_le_alt (r1 r2 : entry) :
  entry_le r1 r2 ↔
  (String.le (word r1) (word r2) ∧ word r1 ≠ word r2) ∨
  (word r1 = word r2 ∧ sense_number r1 ≤ sense_number r2).
Proof.
  unfold entry_le. destruct (String.compare (word r1) (word r2)) eqn:E.
  - apply String.compare_eq_iff in E. split; [by right|].
    intros [[_ ?]|[_ ?]]; done.
  - apply compare_Lt_le in E. split; [by left|done].
  - split; [done|]. intros [H|[Heq _]].
    + apply compare_Lt_le in H. congruence.
    + rewrite Heq, compare_same in E. done.
Qed.

#[local] Instance entry_le_trans : Transitive entry_le.
Proof.
  intros r1 r2 r3. rewrite !entry_le_alt.
  intros [[H12 N12]|[E12 S12]] [[H23 N23]|[E23 S23]].
  - left. split; [by etrans|]. intros E. rewrite <- E in H23.
    apply N12. by apply (anti_symm String.le).
  - left. by rewrite <- E23.
  - left. by rewrite E12.
  - right. split; [congruence|lia].
Qed.

#[local] Instance entry_le_total : Total entry_le.
Proof.
  intros r1 r2. rewrite !entry_le_alt.
  destruct (decide (word r1 = word r2)) as [E|N].
  - destruct (Z.le_ge_cases (sense_number r1) (sense_number r2)); [left|right];
      right; split; done.
  - destruct (total String.le (word r1) (word r2)); [left|right]; left;
      split; done.
Qed.

(** X6. [get_all_entries] returns every row of the table, each as often
    as it is stored, and in order: of two rows, the one listed first has
    the smaller word (byte by byte) or the same word and a sense number
    that is not greater. *)
Theorem get_all_entries_sorted s :
  get_all_entries s ≡ₚ dictionary s ∧
  StronglySorted
    (λ r1 r2, (String.le (word r1) (word r2) ∧ word r1 ≠ word r2) ∨
              (word r1 = word r2 ∧ sense_number r1 ≤ sense_number r2))
    (get_all_entries s).
Proof.
  split; [apply get_all_entries_perm|].
  pose proof (StronglySorted_merge_sort entry_le (dictionary s)) as H.
  unfold get_all_entries. induction H as [|r l _ IH Hall]; constructor; [done|].
  eapply Forall_impl; [exact Hall|]. intros r'. by rewrite entry_le_alt.
Qed.

(** X7. [get_words_list] lists each stored word once, and a word that
    [add_entry] has just written is listed, case-folded. *)
Theorem get_words_list_distinct lower s w c pos d x n :
  Sql.fits_int64 n →
  NoDup (get_words_list s) ∧
  (∀ w', w' ∈ get_words_list s ↔ ∃ r, r ∈ dictionary s ∧ word r = w') ∧
  lower w ∈ get_words_list (add_entry lower w c pos d x n s).2.
Proof.
  intros Hn. split_and!.
  - apply NoDup_remove_dups.
  - apply get_words_list_elem.
  - rewrite add_entry_fits by done. apply get_words_list_elem.
    exists (Entry (lower w) c pos d x n). split; [|done].
    simpl. unfold Sql.insert_or_replace. apply elem_of_app. right.
    by apply list_elem_of_singleton.
Qed.

Lemma get_words_list_distinct_witness :
  Sql.fits_int64 1 ∧
  NoDup (get_words_list two_categories) ∧
  (∀ w', w' ∈ get_words_list two_categories ↔
         ∃ r, r ∈ dictionary two_categories ∧ word r = w') ∧
  Text.lower "Orrin" ∈
    get_words_list (add_entry Text.lower "Orrin" "Planet" "Noun" "A ringed world." "Astronomy" 1
                      two_categories).2.
Proof.
  split; [exact I|].
  exact (get_words_list_distinct Text.lower two_categories "Orrin" "Planet" "Noun"
           "A ringed world." "Astronomy" 1 I).
Defined.

(** *** Batches *)

Lemma for_each_upsert_new lower w c entries s :
  Forall (λ t, Sql.fits_int64 t.2) entries →
  NoDup (unique_key <$> (dictionary s ++ batch_rows lower w c entries)) →
  for_each (upsert_tuple lower w c) entries s
    = (Returned (), set_dictionary (λ rows, rows ++ batch_rows lower w c entries) s).
Proof.
  intros H. revert s. induction H as [|[[[pos d] x] n] entries Hn _ IH]; intros s Hnd.
  - simpl. unfold set_dictionary. rewrite app_nil_r. by destruct s.
  - rewrite for_each_cons. simpl in *.
    rewrite execute_insert_or_replace_fits by done.
    assert (Sql.insert_or_replace (Entry (lower w) c pos d x n) (dictionary s)
            = dictionary s ++ [Entry (lower w) c pos d x n]) as Hnew.
    { apply insert_or_replace_new.
      rewrite fmap_app, fmap_cons in Hnd.
      apply NoDup_app in Hnd as (_ & Hdisj & _).
      intros Hin. apply (Hdisj _ Hin). left. }
    rewrite IH.
    + unfold set_dictionary; simpl. rewrite Hnew. by rewrite <- app_assoc.
    + simpl. rewrite Hnew. by rewrite <- app_assoc.
Qed.

Lemma batch_rows_words lower w c entries :
  Forall (λ r, word r = lower w) (batch_rows lower w c entries).
Proof.
  unfold batch_rows. apply Forall_fmap, Forall_forall.
  by intros [[[pos d] x] n] _.
Qed.

Lemma batch_rows_keys lower w c entries :
  unique_key <$> batch_rows lower w c entries
  = (λ p : string * Z, (lower w, c, p.1, p.2))
      <$> ((λ t : string * string * string * Z, (t.1.1.1, t.2)) <$> entries).
Proof.
  induction entries as [|[[[pos d] x] n] entries IH]; [done|].
  unfold batch_rows in *. rewrite !fmap_cons, IH. done.
Qed.

(** X8. A batch for a word the store does not have, with sense numbers
    that can be bound and no (part of speech, sense) given twice, is
    stored whole: the call returns, the new rows follow the old ones in
    the order of the batch, and the word then has as many rows as the
    batch has tuples. *)
Theorem add_multiple_entries_new_word lower s w c entries :
  store_ok s →
  Forall (λ r, word r ≠ lower w) (dictionary s) →
  Forall (λ t, Sql.fits_int64 t.2) entries →
  NoDup ((λ t, (t.1.1.1, t.2)) <$> entries) →
  ∃ s', add_multiple_entries lower w c entries s = (Returned (), s') ∧
        dictionary s' = dictionary s ++ batch_rows lower w c entries ∧
        length (filter (λ r, word r = lower w) (dictionary s'))
          = length entries.
Proof.
  intros [Hnd _ _] Hnew Hfits Hdistinct.
  exists (set_dictionary (λ rows, rows ++ batch_rows lower w c entries) s).
  split_and!; [|done|].
  - unfold add_multiple_entries. eapply with_conn_returned.
    apply for_each_upsert_new; [done|].
    rewrite fmap_app. apply NoDup_app. split_and!; [done| |].
    + intros k (r & -> & Hr)%list_elem_of_fmap (r' & Hk & Hr')%list_elem_of_fmap.
      rewrite Forall_forall in Hnew. apply (Hnew r Hr).
      pose proof (batch_rows_words lower w c entries) as Hw.
      rewrite Forall_forall in Hw. rewrite <- (Hw r' Hr').
      unfold unique_key in Hk. congruence.
    + rewrite batch_rows_keys. apply NoDup_fmap_2; [|done].
      intros [p1 n1] [p2 n2] [= -> ->]. done.
  - simpl. rewrite filter_app, length_app.
    rewrite (filter_all _ (batch_rows lower w c entries)) by apply batch_rows_words.
    assert (filter (λ r, word r = lower w) (dictionary s) = []) as ->.
    { clear -Hnew. induction Hnew as [|r rows Hr _ IH]; [done|].
      by rewrite filter_cons_False. }
    unfold batch_rows. by rewrite length_fmap.
Qed.

Lemma add_multiple_entries_new_word_witness :
  store_ok fresh_store ∧
  Forall (λ r, word r ≠ Text.lower "Kaneran") (dictionary fresh_store) ∧
  Forall (λ t, Sql.fits_int64 t.2) two_meanings ∧
  NoDup ((λ t, (t.1.1.1, t.2)) <$> two_meanings) ∧
  ∃ s', add_multiple_entries Text.lower "Kaneran" "Species" two_meanings fresh_store
          = (Returned (), s') ∧
        dictionary s' = dictionary fresh_store ++ batch_rows Text.lower "Kaneran" "Species" two_meanings ∧
        length (filter (λ r, word r = Text.lower "Kaneran") (dictionary s'))
          = length two_meanings.
Proof.
  assert (H1 : Forall (λ r, word r ≠ Text.lower "Kaneran") (dictionary fresh_store)).
  { apply (bool_decide_unpack _). vm_compute. exact I. }
  assert (H2 : Forall (λ t, Sql.fits_int64 t.2) two_meanings).
  { apply (bool_decide_unpack _). vm_compute. exact I. }
  assert (H3 : NoDup ((λ t, (t.1.1.1, t.2)) <$> two_meanings)).
  { apply (bool_decide_unpack _). vm_compute. exact I. }
  split; [exact fresh_store_ok|]. split; [exact H1|]. split; [exact H2|].
  split; [exact H3|].
  exact (add_multiple_entries_new_word Text.lower fresh_store "Kaneran" "Species" two_meanings
           fresh_store_ok H1 H2 H3).
Defined.

(** *** Case *)

Lemma dictionary_kept_with_conn (body : conn ()) s :
  dictionary (body s).2 = dictionary s →
  dictionary (with_conn body s).2 = dictionary s.
Proof. unfold with_conn. by destruct (body s) as [[u|e] s']. Qed.

Lemma import_contexts_dictionary data mode s :
  dictionary (import_contexts data mode s).2 = dictionary s.
Proof.
  unfold import_contexts.
  apply (with_conn_preserves (λ s', dictionary s' = dictionary s)); [done|].
  unfold mbind, conn_bind.
  destruct (String.eqb mode "replace"); simpl;
    (apply (for_each_preserves (λ s', dictionary s' = dictionary s)); [|done]);
    intros [[n|]] s0 Hs0; done.
Qed.

Lemma step_lower_words lower s s' :
  (∀ w, lower (lower w) = lower w) →
  step_lower lower s s' →
  Forall (λ r, is_lower lower (word r)) (dictionary s) →
  Forall (λ r, is_lower lower (word r)) (dictionary s').
Proof.
  intros Hidem. destruct 1; intros Hs.
  - by apply add_entry_stores_lower.
  - by apply add_multiple_entries_stores_lower.
  - apply (with_conn_preserves
             (λ s', Forall (λ r, is_lower lower (word r)) (dictionary s'))); [done|].
    destruct sense as [n|].
    + unfold Sql.execute_delete_word_sense, mbind, conn_bind.
      destruct (decide (Sql.fits_int64 n)) as [Hn|Hn].
      * rewrite bind_int_fits by done. by apply Forall_filter_keep.
      * by rewrite bind_int_overflow.
    + by apply Forall_filter_keep.
  - done.
  - done.
  - by rewrite (proj1 (rename_context_tables s old new)).
  - done.
  - by rewrite import_contexts_dictionary.
  - rewrite _prepopulate_contexts_eq. cbn [snd].
    by rewrite (proj1 (add_names_tables default_contexts s)).
Qed.

(** X9. Through every call of the class but [import_dictionary], the
    stored words stay lowercase: in a store that such calls produce
    from a new one every word is its own case fold, and so every row
    can be removed by [delete_entry] on its own word.  This is so for
    a [lower] that, like [str.lower], changes nothing when applied a
    second time. *)
Theorem words_stay_lower lower s :
  (∀ w, lower (lower w) = lower w) →
  rtc (step_lower lower) fresh_store s →
  Forall (λ r, is_lower lower (word r)) (dictionary s) ∧
  ∀ r, r ∈ dictionary s → r ∉ dictionary (delete_entry lower (word r) None s).2.
Proof.
  intros Hidem H.
  assert (Forall (λ r, is_lower lower (word r)) (dictionary s)) as Hlow.
  { eapply (rtc_ind_r (λ s, Forall (λ r, is_lower lower (word r)) (dictionary s))
                      fresh_store); [|clear -Hidem; intros s0 s1 _ Hstep Hs0|exact H].
    - rewrite fresh_store_tables. constructor.
    - by eapply step_lower_words. }
  split; [done|]. intros r Hr.
  rewrite delete_entry_word_eq. simpl. rewrite list_elem_of_filter.
  intros [Hne _]. apply Hne. symmetry.
  rewrite Forall_forall in Hlow. apply (Hlow r Hr).
Qed.

Lemma two_categories_lower_reachable : rtc (step_lower Text.lower) fresh_store two_categories.
Proof.
  unfold two_categories.
  eapply rtc_l; [apply lower_add_entry|].
  eapply rtc_l; [apply lower_add_entry|].
  eapply rtc_l; [apply lower_add_entry|].
  apply rtc_refl.
Defined.

Lemma words_stay_lower_witness :
  (∀ w, Text.lower (Text.lower w) = Text.lower w) ∧
  rtc (step_lower Text.lower) fresh_store two_categories ∧
  Forall (λ r, is_lower Text.lower (word r)) (dictionary two_categories) ∧
  ∀ r, r ∈ dictionary two_categories →
       r ∉ dictionary (delete_entry Text.lower (word r) None two_categories).2.
Proof.
  split; [exact lower_idemp|]. split; [exact two_categories_lower_reachable|].
  exact (words_stay_lower Text.lower two_categories lower_idemp
           two_categories_lower_reachable).
Defined.

Lemma two_categories_reachable : reachable Text.lower two_categories.
Proof.
  unfold reachable, two_categories.
  eapply rtc_l; [apply step_add_entry|].
  eapply rtc_l; [apply step_add_entry|].
  eapply rtc_l; [apply step_add_entry|].
  apply rtc_refl.
Defined.

Lemma reachable_ok_witness : reachable Text.lower two_categories ∧ store_ok two_categories.
Proof.
  split; [exact two_categories_reachable|].
  exact (reachable_ok Text.lower two_categories two_categories_reachable).
Defined.

(** ** Contexts, further *)

(** X11. [get_contexts] returns the names of the table, each as often
    as it is stored, in ascending order of their bytes, and
    [export_contexts] wraps them one by one in that order. *)
Theorem get_contexts_sorted s :
  get_contexts s ≡ₚ contexts s ∧
  StronglySorted String.le (get_contexts s) ∧
  d_name <$> export_contexts s = Some <$> get_contexts s.
Proof.
  split_and!.
  - apply merge_sort_Permutation.
  - apply (StronglySorted_merge_sort String.le).
  - unfold export_contexts. by rewrite <- list_fmap_compose.
Qed.

Lemma get_contexts_elem s n : n ∈ get_contexts s ↔ n ∈ contexts s.
Proof. unfold get_contexts. by rewrite merge_sort_Permutation. Qed.

Lemma delete_context_eq name s :
  delete_context name s
  = (Returned (), set_contexts (filter (λ n, n ≠ name)) s).
Proof. reflexivity. Qed.

Lemma set_contexts_same (rows : list string) s :
  rows = contexts s → set_contexts (λ _, rows) s = s.
Proof. intros ->. by destruct s. Qed.

(** X12. [delete_context] returns, and afterwards the name is not
    listed while every other name still is; entries and settings are
    untouched.  On a store that satisfies its constraints exactly one
    row goes when the name was there, and nothing changes when it was
    not. *)
Theorem delete_context_unlists s name :
  store_ok s →
  ∃ s', delete_context name s = (Returned (), s') ∧
        (∀ n, n ∈ get_contexts s' ↔ n ∈ get_contexts s ∧ n ≠ name) ∧
        (if decide (name ∈ contexts s)
         then S (length (contexts s')) = length (contexts s)
         else s' = s) ∧
        dictionary s' = dictionary s ∧ settings s' = settings s.
Proof.
  intros [_ _ Hnd]. eexists. split; [apply delete_context_eq|].
  split_and!; try done.
  - intros n. rewrite !get_contexts_elem. simpl.
    rewrite list_elem_of_filter. tauto.
  - simpl. case_decide as Hin.
    + pose proof (length_filter_split (λ n, n = name) (contexts s)) as Hlen.
      rewrite (count_NoDup name (contexts s) Hnd Hin) in Hlen. lia.
    + unfold set_contexts. rewrite filter_all; [by destruct s|].
      apply Forall_forall. by intros n Hn ->.
Qed.

Lemma delete_context_unlists_witness :
  store_ok fresh_store ∧
  ∃ s', delete_context "Planet" fresh_store = (Returned (), s') ∧
        (∀ n, n ∈ get_contexts s' ↔ n ∈ get_contexts fresh_store ∧ n ≠ "Planet"%string) ∧
        (if decide ("Planet"%string ∈ contexts fresh_store)
         then S (length (contexts s')) = length (contexts fresh_store)
         else s' = fresh_store) ∧
        dictionary s' = dictionary fresh_store ∧ settings s' = settings fresh_store.
Proof.
  split; [exact fresh_store_ok|].
  exact (delete_context_unlists fresh_store "Planet" fresh_store_ok).
Defined.

(** X13. Adding a context that is not there and deleting it again gives
    back the store as it was. *)
Theorem add_then_delete_context_restores s name :
  name ∉ contexts s →
  ∃ s1, add_context name s = (Returned (), s1) ∧
        delete_context name s1 = (Returned (), s).
Proof.
  intros Hnew. eexists. split; [apply add_context_eq|].
  rewrite delete_context_eq. f_equal. unfold set_contexts; simpl.
  unfold Sql.insert_or_ignore. rewrite decide_False by done.
  rewrite filter_app, filter_cons_False by tauto.
  rewrite filter_nil, app_nil_r, filter_all; [by destruct s|].
  apply Forall_forall. by intros n Hn ->.
Qed.

Lemma add_then_delete_context_restores_witness :
  ("Galaxy"%string ∉ contexts two_categories) ∧
  ∃ s1, add_context "Galaxy" two_categories = (Returned (), s1) ∧
        delete_context "Galaxy" s1 = (Returned (), two_categories).
Proof.
  assert (H : "Galaxy"%string ∉ contexts two_categories).
  { apply (bool_decide_unpack _). vm_compute. exact I. }
  split; [exact H|].
  exact (add_then_delete_context_restores two_categories "Galaxy" H).
Defined.

(** *** Rename, when it succeeds *)

Lemma fmap_rename_absent (old new : string) (rows : list string) :
  old ∉ rows → (λ n, if decide (n = old) then new else n) <$> rows = rows.
Proof.
  induction rows as [|n rows IH]; [done|].
  intros [Hne Hold]%not_elem_of_cons. rewrite fmap_cons, IH by done.
  by rewrite decide_False.
Qed.

Lemma update_name_fresh new old before after :
  NoDup after → new ∉ before → new ∉ after →
  Sql.update_name new old before after
  = Some (before ++ ((λ n, if decide (n = old) then new else n) <$> after)).
Proof.
  intros Hnd. revert before.
  induction Hnd as [|n rest Hn Hnd IH]; intros before Hb Ha; simpl.
  - by rewrite app_nil_r.
  - apply not_elem_of_cons in Ha as [Hne Ha].
    destruct (decide (n = old)) as [->|Hn'].
    + rewrite decide_False by tauto.
      rewrite update_name_absent by done.
      rewrite fmap_rename_absent by done. by rewrite <- app_assoc.
    + rewrite IH; [by rewrite <- app_assoc| |done].
      rewrite elem_of_app, list_elem_of_singleton. tauto.
Qed.

Lemma rename_context_fresh s old new :
  NoDup (contexts s) → new ∉ contexts s →
  rename_context old new s
  = (Returned (),
     set_contexts (fmap (λ n, if decide (n = old) then new else n)) s).
Proof.
  intros Hnd Hnew. unfold rename_context, with_conn, Sql.execute_update_context.
  rewrite update_name_fresh by (done || apply not_elem_of_nil). done.
Qed.

(** X14. Renaming a context to a name no context has returns and
    changes that one row in place: the list of contexts is the old
    list with the new name where the old one stood, so the new name is
    listed, the old one is not, and the number of contexts is the same.
    The store satisfies its constraints. *)
Theorem rename_context_renames s old new :
  store_ok s → old ∈ contexts s → new ∉ contexts s →
  ∃ s', rename_context old new s = (Returned (), s') ∧
        contexts s' = (λ n, if decide (n = old) then new else n) <$> contexts s ∧
        new ∈ get_contexts s' ∧ (old ∉ get_contexts s') ∧
        length (contexts s') = length (contexts s).
Proof.
  intros [_ _ Hnd] Hold Hnew. eexists.
  split; [by apply rename_context_fresh|]. simpl. split_and!; [done| | |].
  - apply get_contexts_elem. simpl. apply list_elem_of_fmap.
    exists old. by rewrite decide_True.
  - rewrite get_contexts_elem. simpl.
    intros (n & Hn & Hin)%list_elem_of_fmap.
    case_decide; subst; done.
  - by rewrite length_fmap.
Qed.

Lemma rename_context_renames_witness :
  store_ok fresh_store ∧
  ("Planet"%string ∈ contexts fresh_store) ∧
  ("World"%string ∉ contexts fresh_store) ∧
  ∃ s', rename_context "Planet" "World" fresh_store = (Returned (), s') ∧
        contexts s' = (λ n, if decide (n = "Planet"%string) then "World"%string else n)
                        <$> contexts fresh_store ∧
        "World"%string ∈ get_contexts s' ∧ ("Planet"%string ∉ get_contexts s') ∧
        length (contexts s') = length (contexts fresh_store).
Proof.
  assert (H1 : "Planet"%string ∈ contexts fresh_store).
  { apply (bool_decide_unpack _). vm_compute. exact I. }
  assert (H2 : "World"%string ∉ contexts fresh_store).
  { apply (bool_decide_unpack _). vm_compute. exact I. }
  split; [exact fresh_store_ok|]. split; [exact H1|]. split; [exact H2|].
  exact (rename_context_renames fresh_store "Planet" "World" fresh_store_ok H1 H2).
Defined.

Lemma update_name_same name before after :
  NoDup (before ++ after) →
  Sql.update_name name name before after = Some (before ++ after).
Proof.
  revert before. induction after as [|n rest IH]; intros before Hnd; simpl.
  - by rewrite app_nil_r.
  - destruct (decide (n = name)) as [->|Hn].
    + apply NoDup_app in Hnd as (Hb & Hdisj & [Hname Hr]%NoDup_cons).
      rewrite decide_False.
      * rewrite update_name_absent by done. by rewrite <- app_assoc.
      * intros [Hin|Hin]; [|done]. apply (Hdisj _ Hin). left.
    + rewrite IH; by rewrite <- app_assoc.
Qed.

(** X15. Renaming a context to the name it has is not a conflict: on a
    store that satisfies its constraints the call returns and the store
    is unchanged, whether the name is there or not. *)
Theorem rename_context_same_name s name :
  store_ok s → rename_context name name s = (Returned (), s).
Proof.
  intros [_ _ Hnd]. unfold rename_context, with_conn, Sql.execute_update_context.
  rewrite update_name_same by done. simpl. by destruct s.
Qed.

Lemma rename_context_same_name_witness :
  store_ok fresh_store ∧
  rename_context "Planet" "Planet" fresh_store = (Returned (), fresh_store).
Proof.
  split; [exact fresh_store_ok|].
  exact (rename_context_same_name fresh_store "Planet" fresh_store_ok).
Defined.

(** X16. A rename can be undone: after renaming a context to a name no
    context had, renaming it back returns and gives the store as it
    was. *)
Theorem rename_context_back s old new :
  store_ok s → old ∈ contexts s → new ∉ contexts s →
  ∃ s1, rename_context old new s = (Returned (), s1) ∧
        rename_context new old s1 = (Returned (), s).
Proof.
  intros [_ _ Hnd] Hold Hnew.
  assert (old ≠ new) as Hne by (by intros ->).
  eexists. split; [by apply rename_context_fresh|].
  rewrite rename_context_fresh; simpl.
  - f_equal. unfold set_contexts; simpl.
    rewrite <- list_fmap_compose.
    replace (_ <$> contexts s) with (contexts s); [by destruct s|].
    rewrite <- (list_fmap_id (contexts s)) at 1. apply list_fmap_ext.
    intros i n Hn%list_elem_of_lookup_2. simpl.
    destruct (decide (n = old)) as [->|Hn'].
    + by rewrite decide_True.
    + rewrite decide_False; [done|]. by intros ->.
  - apply NoDup_fmap_2_strong; [|done].
    intros n1 n2 Hn1 Hn2 Heq. repeat case_decide; subst; done.
  - intros (n & Hn & Hin)%list_elem_of_fmap.
    case_decide; subst; done.
Qed.

Lemma rename_context_back_witness :
  store_ok fresh_store ∧
  ("Planet"%string ∈ contexts fresh_store) ∧
  ("World"%string ∉ contexts fresh_store) ∧
  ∃ s1, rename_context "Planet" "World" fresh_store = (Returned (), s1) ∧
        rename_context "World" "Planet" s1 = (Returned (), fresh_store).
Proof.
  assert (H1 : "Planet"%string ∈ contexts fresh_store).
  { apply (bool_decide_unpack _). vm_compute. exact I. }
  assert (H2 : "World"%string ∉ contexts fresh_store).
  { apply (bool_decide_unpack _). vm_compute. exact I. }
  split; [exact fresh_store_ok|]. split; [exact H1|]. split; [exact H2|].
  exact (rename_context_back fresh_store "Planet" "World" fresh_store_ok H1 H2).
Defined.

(** *** Seeding and import of contexts *)

Lemma add_names_contexts_elem names n s :
  n ∈ contexts (add_names names s) ↔ n ∈ contexts s ∨ n ∈ names.
Proof.
  revert s. induction names as [|n' names IH]; intros s.
  - simpl. rewrite elem_of_nil. tauto.
  - simpl. rewrite IH. simpl. unfold Sql.insert_or_ignore. rewrite elem_of_cons.
    case_decide as Hin.
    + split; [tauto|]. intros [?|[->|?]]; tauto.
    + rewrite elem_of_app, list_elem_of_singleton. tauto.
Qed.

Lemma add_names_prefix names s :
  contexts s `prefix_of` contexts (add_names names s).
Proof.
  revert s. induction names as [|n names IH]; intros s; [done|].
  simpl. etrans; [|apply IH]. simpl. unfold Sql.insert_or_ignore.
  case_decide; [done|]. by apply prefix_app_r.
Qed.

Lemma add_names_new names s :
  NoDup (contexts s ++ names) →
  contexts (add_names names s) = contexts s ++ names.
Proof.
  revert s. induction names as [|n names IH]; intros s Hnd.
  - simpl. by rewrite app_nil_r.
  - simpl. rewrite IH; simpl.
    + unfold Sql.insert_or_ignore. rewrite decide_False; [by rewrite <- app_assoc|].
      apply NoDup_app in Hnd as (_ & Hdisj & _).
      intros Hin. apply (Hdisj _ Hin). left.
    + unfold Sql.insert_or_ignore. rewrite decide_False; [by rewrite <- app_assoc|].
      apply NoDup_app in Hnd as (_ & Hdisj & _).
      intros Hin. apply (Hdisj _ Hin). left.
Qed.

(** X17. Seeding the defaults returns, keeps the contexts the store had,
    in their places, and adds after them the defaults that were
    missing: the names afterwards are the names before and the ten
    defaults.  Entries and settings are untouched. *)
Theorem _prepopulate_contexts_keeps s :
  ∃ s', _prepopulate_contexts s = (Returned (), s') ∧
        contexts s `prefix_of` contexts s' ∧
        (∀ n, n ∈ contexts s' ↔ n ∈ contexts s ∨ n ∈ default_contexts) ∧
        dictionary s' = dictionary s ∧ settings s' = settings s.
Proof.
  eexists. split; [apply _prepopulate_contexts_eq|]. cbn [snd].
  destruct (add_names_tables default_contexts s) as [Hd Hs].
  split_and!; [apply add_names_prefix| |done..].
  intros n. apply add_names_contexts_elem.
Qed.

Lemma names_of_payload data :
  Forall (λ e, is_Some (d_name e)) data →
  ∃ names, Forall2 (λ e n, d_name e = Some n) data names ∧
           d_name <$> data = Some <$> names.
Proof.
  induction 1 as [|e data [n Hn] _ (names & H2 & Heq)].
  - by exists [].
  - exists (n :: names). split; [by constructor|].
    rewrite !fmap_cons. by f_equal.
Qed.

Lemma import_contexts_replace data names s :
  Forall2 (λ e n, d_name e = Some n) data names →
  import_contexts data "replace" s
  = (Returned (), add_names names (set_contexts (λ _, []) s)).
Proof.
  intros H. unfold import_contexts. eapply with_conn_returned. simpl.
  unfold mbind at 1, conn_bind; simpl. by apply for_each_import_context.
Qed.

Lemma elem_of_Some_fmap (n : string) (names : list string) :
  Some n ∈ Some <$> names ↔ n ∈ names.
Proof.
  rewrite list_elem_of_fmap. split; [by intros (n' & [= ->] & Hin)|eauto].
Qed.

(** X18. An import of contexts whose mappings all carry a name returns.
    In "merge" mode the contexts the store had stay in their places and
    the names afterwards are those and the payload's; in "replace" mode
    the names afterwards are the payload's and no others, each once.
    Entries and settings are untouched in both. *)
Theorem import_contexts_names data s :
  Forall (λ e, is_Some (d_name e)) data →
  (∃ s', import_contexts data "merge" s = (Returned (), s') ∧
         contexts s `prefix_of` contexts s' ∧
         (∀ n, n ∈ contexts s' ↔ n ∈ contexts s ∨ Some n ∈ d_name <$> data) ∧
         dictionary s' = dictionary s ∧ settings s' = settings s) ∧
  (∃ s', import_contexts data "replace" s = (Returned (), s') ∧
         NoDup (contexts s') ∧
         (∀ n, n ∈ contexts s' ↔ Some n ∈ d_name <$> data) ∧
         dictionary s' = dictionary s ∧ settings s' = settings s).
Proof.
  intros Hdata. destruct (names_of_payload data Hdata) as (names & H2 & Heq).
  rewrite Heq. split.
  - eexists. split; [by apply import_contexts_merge|].
    destruct (add_names_tables names s) as [Hd Hs].
    split_and!; [apply add_names_prefix| |done..].
    intros n. by rewrite add_names_contexts_elem, elem_of_Some_fmap.
  - eexists. split; [by apply import_contexts_replace|].
    destruct (add_names_tables names (set_contexts (λ _, []) s)) as [Hd Hs].
    split_and!; [|  |done..].
    + apply add_names_NoDup. simpl. constructor.
    + intros n. rewrite add_names_contexts_elem, elem_of_Some_fmap. simpl.
      rewrite elem_of_nil. tauto.
Qed.

Lemma import_contexts_names_witness :
  Forall (λ e, is_Some (d_name e)) repeated_contexts ∧
  (∃ s', import_contexts repeated_contexts "merge" fresh_store = (Returned (), s') ∧
         contexts fresh_store `prefix_of` contexts s' ∧
         (∀ n, n ∈ contexts s' ↔
               n ∈ contexts fresh_store ∨ Some n ∈ d_name <$> repeated_contexts) ∧
         dictionary s' = dictionary fresh_store ∧ settings s' = settings fresh_store) ∧
  (∃ s', import_contexts repeated_contexts "replace" fresh_store = (Returned (), s') ∧
         NoDup (contexts s') ∧
         (∀ n, n ∈ contexts s' ↔ Some n ∈ d_name <$> repeated_contexts) ∧
         dictionary s' = dictionary fresh_store ∧ settings s' = settings fresh_store).
Proof.
  assert (Hdata : Forall (λ e, is_Some (d_name e)) repeated_contexts).
  { repeat apply List.Forall_cons; try apply List.Forall_nil; by eexists. }
  split; [exact Hdata|].
  exact (import_contexts_names repeated_contexts fresh_store Hdata).
Defined.

Lemma for_each_import_context_raised data s :
  Exists (λ e, d_name e = None) data →
  ∃ s', for_each import_context data s = (Raised (KeyError "name"), s').
Proof.
  intros H. revert s. induction H as [[o] data Ho|[[n|]] data _ IH]; intros s;
    rewrite for_each_cons; simpl in *.
  - subst o. eauto.
  - apply IH.
  - eauto.
Qed.

Lemma import_contexts_missing_name data mode s :
  Exists (λ e, d_name e = None) data →
  import_contexts data mode s = (Raised (KeyError "name"), s).
Proof.
  intros H. unfold import_contexts.
  set (purge := if String.eqb mode "replace" then _ else _).
  assert (∃ s', (purge;; for_each import_context data) s
                = (Raised (KeyError "name"), s')) as [s' Hbody].
  { unfold mbind, conn_bind.
    destruct (purge s) as [[u|e] s0] eqn:E.
    - by apply for_each_import_context_raised.
    - subst purge. by destruct (String.eqb mode "replace"). }
  by eapply with_conn_raised.
Qed.

(** X19. When some mapping of a contexts payload has no name,
    [import_contexts] raises [KeyError] for "name", in either mode, and
    the store is the one before the call: no name of the payload is
    added and, under "replace", no context is lost. *)
Theorem import_contexts_malformed_aborts data mode s :
  Exists (λ e, d_name e = None) data →
  import_contexts data mode s = (Raised (KeyError "name"), s).
Proof. apply import_contexts_missing_name. Qed.

Lemma import_contexts_malformed_aborts_witness :
  Exists (λ e, d_name e = None) [ContextDict (Some "Galaxy"); ContextDict None] ∧
  import_contexts [ContextDict (Some "Galaxy"); ContextDict None] "replace" two_categories
    = (Raised (KeyError "name"), two_categories).
Proof.
  assert (H : Exists (λ e, d_name e = None)
                     [ContextDict (Some "Galaxy"); ContextDict None]).
  { apply Exists_cons_tl, Exists_cons_hd. reflexivity. }
  split; [exact H|].
  exact (import_contexts_malformed_aborts _ "replace" two_categories H).
Defined.

(** X20. Contexts round trip: importing, in "replace" mode, what
    [export_contexts] gives for a store that satisfies its constraints
    returns, into any store, and leaves there the names of the exported
    store, each once, in the alphabetical order of the export. *)
Theorem export_import_contexts_round_trip s s0 :
  store_ok s →
  ∃ s', import_contexts (export_contexts s) "replace" s0 = (Returned (), s') ∧
        contexts s' = get_contexts s ∧
        contexts s' ≡ₚ contexts s ∧
        dictionary s' = dictionary s0 ∧ settings s' = settings s0.
Proof.
  intros [_ _ Hnd].
  assert (Forall2 (λ e n, d_name e = Some n) (export_contexts s) (get_contexts s))
    as H2.
  { unfold export_contexts. induction (get_contexts s); constructor; done. }
  eexists. split; [by apply import_contexts_replace|].
  destruct (add_names_tables (get_contexts s) (set_contexts (λ _, []) s0)) as [Hd Hs].
  assert (contexts (add_names (get_contexts s) (set_contexts (λ _, []) s0))
          = get_contexts s) as Hc.
  { rewrite add_names_new; [done|]. simpl.
    unfold get_contexts. by rewrite merge_sort_Permutation. }
  split_and!; [done| |done..].
  rewrite Hc. apply merge_sort_Permutation.
Qed.

Lemma export_import_contexts_round_trip_witness :
  store_ok fresh_store ∧
  ∃ s', import_contexts (export_contexts fresh_store) "replace" two_categories
          = (Returned (), s') ∧
        contexts s' = get_contexts fresh_store ∧
        contexts s' ≡ₚ contexts fresh_store ∧
        dictionary s' = dictionary two_categories ∧
        settings s' = settings two_categories.
Proof.
  split; [exact fresh_store_ok|].
  exact (export_import_contexts_round_trip fresh_store two_categories fresh_store_ok).
Defined.

(** ** Settings *)

Lemma set_setting_eq k v s :
  set_setting k v s = (Returned (), set_settings (<[k := v]>) s).
Proof. reflexivity. Qed.

(** X21. A setting reads back as written: after [set_setting k v],
    [get_setting k] is [v] whatever the default, every other key reads
    as it did before, and entries and contexts are untouched. *)
Theorem set_setting_get_setting s k k' v d :
  k' ≠ k →
  ∃ s', set_setting k v s = (Returned (), s') ∧
        get_setting k d s' = v ∧
        get_setting k' d s' = get_setting k' d s ∧
        dictionary s' = dictionary s ∧ contexts s' = contexts s.
Proof.
  intros Hne. eexists. split; [apply set_setting_eq|].
  unfold get_setting. simpl. split_and!; try done.
  - by rewrite lookup_insert_eq.
  - by rewrite lookup_insert_ne.
Qed.

Lemma set_setting_get_setting_witness :
  ("spellcheck"%string ≠ "auto_learn_contexts"%string) ∧
  ∃ s', set_setting "auto_learn_contexts" "true" fresh_store = (Returned (), s') ∧
        get_setting "auto_learn_contexts" "false" s' = "true"%string ∧
        get_setting "spellcheck" "false" s'
          = get_setting "spellcheck" "false" fresh_store ∧
        dictionary s' = dictionary fresh_store ∧ contexts s' = contexts fresh_store.
Proof.
  assert (H : "spellcheck"%string ≠ "auto_learn_contexts"%string) by discriminate.
  split; [exact H|].
  exact (set_setting_get_setting fresh_store "auto_learn_contexts" "spellcheck"
           "true" "false" H).
Defined.

(** X22. A key holds one value, the last one written: writing a setting
    twice leaves the store that the second write alone would have left.
    A key that was never written reads as the default the caller
    gives: so does every key of a new store. *)
Theorem set_setting_last_wins s k v1 v2 d :
  set_setting k v2 (set_setting k v1 s).2 = set_setting k v2 s ∧
  (settings s !! k = None → get_setting k d s = d) ∧
  get_setting k d fresh_store = d.
Proof.
  split_and!.
  - rewrite !set_setting_eq. f_equal. unfold set_settings; simpl.
    by rewrite insert_insert_eq.
  - unfold get_setting. by intros ->.
  - rewrite fresh_store_tables. unfold get_setting. simpl.
    by rewrite lookup_empty.
Qed.

Lemma set_setting_last_wins_witness :
  settings two_categories !! "auto_learn_contexts"%string = None ∧
  set_setting "auto_learn_contexts" "false"
              (set_setting "auto_learn_contexts" "true" two_categories).2
    = set_setting "auto_learn_contexts" "false" two_categories ∧
  get_setting "auto_learn_contexts" "false" two_categories = "false"%string ∧
  get_setting "auto_learn_contexts" "false" fresh_store = "false"%string.
Proof.
  assert (H : settings two_categories !! "auto_learn_contexts"%string = None).
  { vm_compute. reflexivity. }
  pose proof (set_setting_last_wins two_categories "auto_learn_contexts"
                "true" "false" "false") as (H1 & H2 & H3).
  split; [exact H|]. split; [exact H1|]. split; [exact (H2 H)|exact H3].
Defined.

(** ** Import of entries, further *)

(** Rows with pairwise different keys replace the rows that hold their
    keys and follow the rows that do not. *)
Lemma for_each_import_merge data rows s :
  Forall2 (λ e r, payload_row e = Some r) data rows →
  Forall (λ r, Sql.fits_int64 (sense_number r)) rows →
  NoDup (unique_key <$> rows) →
  for_each import_entry data s
  = (Returned (),
     set_dictionary
       (λ old, filter (λ r, unique_key r ∉ unique_key <$> rows) old ++ rows) s).
Proof.
  intros H. revert s. induction H as [|e r data rows He _ IH]; intros s Hfits Hnd.
  - simpl. unfold set_dictionary. rewrite app_nil_r.
    rewrite filter_all; [by destruct s|].
    apply Forall_forall. intros r _. apply not_elem_of_nil.
  - apply Forall_cons in Hfits as [Hr Hfits].
    rewrite fmap_cons, NoDup_cons in Hnd. destruct Hnd as [Hk Hnd].
    rewrite for_each_cons, (import_entry_row e r) by done.
    rewrite IH by done. f_equal. unfold set_dictionary; simpl. f_equal.
    unfold Sql.insert_or_replace.
    rewrite filter_app, list_filter_filter.
    rewrite (filter_cons_True _ r) by done.
    rewrite filter_nil, <- app_assoc. simpl. f_equal.
    apply list_filter_iff. intros r'. rewrite not_elem_of_cons. tauto.
Qed.

Lemma payload_keys_NoDup data rows :
  payload_key <$> data =
    (λ r, (Some (word r), Some (category r),
           Some (part_of_speech r), sense_number r)) <$> rows →
  NoDup (payload_key <$> data) → NoDup (unique_key <$> rows).
Proof.
  intros -> Hnd.
  eapply (NoDup_fmap_1 (λ k : string * string * string * Z,
            (Some k.1.1.1, Some k.1.1.2, Some k.1.2, k.2))).
  by rewrite <- list_fmap_compose.
Qed.

Lemma import_dictionary_merge_eq data body s s' :
  for_each import_entry data s = (Returned body, s') →
  import_dictionary data "merge" s = (Returned (), s').
Proof.
  intros H. unfold import_dictionary. eapply with_conn_returned. simpl.
  unfold mbind at 1, conn_bind; simpl. exact H.
Qed.

(** X23. A "merge" import of well-formed mappings with pairwise
    different keys returns and upserts row by row: the rows of the
    store whose key the payload does not have stay, in their order; the
    rows whose key it has are replaced; and the payload's rows follow,
    in the order of the payload.  Contexts and settings are
    untouched. *)
Theorem import_dictionary_merge_overwrites data s :
  Forall well_formed data →
  NoDup (payload_key <$> data) →
  ∃ s' rows,
    import_dictionary data "merge" s = (Returned (), s') ∧
    Some <$> rows = payload_row <$> data ∧
    dictionary s' =
      filter (λ r, unique_key r ∉ unique_key <$> rows) (dictionary s) ++ rows ∧
    contexts s' = contexts s ∧ settings s' = settings s.
Proof.
  intros Hwf Hnd.
  destruct (well_formed_rows data Hwf) as (rows & H2 & Hfits & Hkeys).
  eexists _, rows. split_and!.
  - eapply import_dictionary_merge_eq, for_each_import_merge; [done..|].
    by eapply payload_keys_NoDup.
  - clear -H2. induction H2 as [|e r data rows He _ IH]; [done|].
    rewrite !fmap_cons. by f_equal.
  - done.
  - done.
  - done.
Qed.

Lemma import_dictionary_merge_overwrites_witness :
  Forall well_formed two_entry_payload ∧
  NoDup (payload_key <$> two_entry_payload) ∧
  ∃ s' rows,
    import_dictionary two_entry_payload "merge" two_categories = (Returned (), s') ∧
    Some <$> rows = payload_row <$> two_entry_payload ∧
    dictionary s' =
      filter (λ r, unique_key r ∉ unique_key <$> rows) (dictionary two_categories)
        ++ rows ∧
    contexts s' = contexts two_categories ∧ settings s' = settings two_categories.
Proof.
  assert (Hwf : Forall well_formed two_entry_payload).
  { repeat apply List.Forall_cons; try apply List.Forall_nil;
      (split; [intros [H|[H|[H|[H|H]]]]; discriminate | exact I]). }
  assert (Hnd : NoDup (payload_key <$> two_entry_payload)).
  { apply (bool_decide_unpack _). vm_compute. exact I. }
  split; [exact Hwf|]. split; [exact Hnd|].
  exact (import_dictionary_merge_overwrites two_entry_payload two_categories Hwf Hnd).
Defined.

(** X24. Importing a store's own export back into it loses nothing and
    adds nothing, in either mode: on a store that satisfies its
    constraints the call returns and the table holds the same rows,
    now in the order of the export. *)
Theorem import_own_export s mode :
  store_ok s →
  ∃ s', import_dictionary (export_dictionary s) mode s = (Returned (), s') ∧
        dictionary s' = get_all_entries s ∧
        dictionary s' ≡ₚ dictionary s ∧
        contexts s' = contexts s ∧ settings s' = settings s.
Proof.
  intros [Hnd Hfits _].
  assert (NoDup (unique_key <$> get_all_entries s)) as Hnd'
    by by rewrite get_all_entries_perm.
  assert (Forall (λ r, Sql.fits_int64 (sense_number r)) (get_all_entries s))
    as Hfits' by by rewrite get_all_entries_perm.
  pose proof (payload_row_export (get_all_entries s)) as H2.
  exists (set_dictionary (λ _, get_all_entries s) s).
  split_and!; [|done|apply get_all_entries_perm|done..].
  unfold import_dictionary, export_dictionary. eapply with_conn_returned.
  unfold mbind at 1, conn_bind.
  destruct (String.eqb mode "replace"); simpl.
  - rewrite (for_each_import_merge _ _ _ H2 Hfits' Hnd'). done.
  - rewrite (for_each_import_merge _ _ _ H2 Hfits' Hnd'). f_equal.
    unfold set_dictionary; simpl. f_equal.
    replace (filter _ (dictionary s)) with (@nil entry); [done|].
    symmetry. apply length_zero_iff_nil.
    assert (Forall (λ r, ¬ (unique_key r ∉ unique_key <$> get_all_entries s))
                   (dictionary s)) as Hall.
    { apply Forall_forall. intros r Hr Hnot. apply Hnot.
      apply list_elem_of_fmap. exists r. split; [done|].
      by rewrite get_all_entries_perm. }
    clear -Hall. induction Hall as [|r rows Hr _ IH]; [done|].
    by rewrite filter_cons_False.
Qed.

Lemma import_own_export_witness :
  store_ok two_categories ∧
  ∃ s', import_dictionary (export_dictionary two_categories) "merge" two_categories
          = (Returned (), s') ∧
        dictionary s' = get_all_entries two_categories ∧
        dictionary s' ≡ₚ dictionary two_categories ∧
        contexts s' = contexts two_categories ∧ settings s' = settings two_categories.
Proof.
  split; [exact two_categories_ok|].
  exact (import_own_export two_categories "merge" two_categories_ok).
Defined.

(** X25. What [export_dictionary] gives for a store that satisfies its
    constraints is a payload [import_dictionary] accepts: one mapping
    per row, in the order of [get_all_entries], each with all six keys
    and a sense number that can be bound, and no two with the same
    (word, category, part of speech, sense). *)
Theorem export_dictionary_well_formed s :
  store_ok s →
  length (export_dictionary s) = length (dictionary s) ∧
  payload_row <$> export_dictionary s = Some <$> get_all_entries s ∧
  Forall well_formed (export_dictionary s) ∧
  NoDup (payload_key <$> export_dictionary s).
Proof.
  intros [Hnd Hfits _]. unfold export_dictionary. split_and!.
  - rewrite length_fmap. apply Permutation_length, get_all_entries_perm.
  - rewrite <- list_fmap_compose. apply list_fmap_ext. by intros i [] _.
  - apply Forall_fmap, Forall_forall. intros r Hr. split.
    + intros [H|[H|[H|[H|H]]]]; discriminate.
    + simpl. rewrite Forall_forall in Hfits. apply Hfits.
      by rewrite <- get_all_entries_perm.
  - rewrite <- list_fmap_compose.
    apply (NoDup_fmap_2_strong _ (get_all_entries s)).
    + intros r1 r2 Hr1 Hr2 [= Hw Hc Hp Hn].
      assert (unique_key r1 = unique_key r2) as Hk
        by (unfold unique_key; congruence).
      assert (NoDup (unique_key <$> get_all_entries s)) as Hnd'
        by by rewrite get_all_entries_perm.
      apply list_elem_of_lookup in Hr1 as [i Hi], Hr2 as [j Hj].
      assert (i = j) as ->.
      { eapply NoDup_lookup; [exact Hnd'| |];
          rewrite list_lookup_fmap; [by rewrite Hi|by rewrite Hj, Hk]. }
      congruence.
    + eapply NoDup_fmap_1. by rewrite get_all_entries_perm.
Qed.

Lemma export_dictionary_well_formed_witness :
  store_ok two_categories ∧
  length (export_dictionary two_categories) = length (dictionary two_categories) ∧
  payload_row <$> export_dictionary two_categories
    = Some <$> get_all_entries two_categories ∧
  Forall well_formed (export_dictionary two_categories) ∧
  NoDup (payload_key <$> export_dictionary two_categories).
Proof.
  split; [exact two_categories_ok|].
  exact (export_dictionary_well_formed two_categories two_categories_ok).
Defined.

(** ** Callers *)

(** X26. The box "Auto-learn new contexts" shows what was last toggled:
    after [toggle_auto_learn] the state read for the box is the state
    written, and in a new store the box is unchecked. *)
Theorem toggle_auto_learn_reads_back s is_checked :
  ∃ s', toggle_auto_learn is_checked s = (Returned (), s') ∧
        auto_learn_checked s' = is_checked ∧
        auto_learn_checked fresh_store = false ∧
        dictionary s' = dictionary s ∧ contexts s' = contexts s.
Proof.
  eexists. split; [apply set_setting_eq|].
  unfold auto_learn_checked, get_setting. simpl. rewrite lookup_insert_eq.
  split_and!; try done. by destruct is_checked.
Qed.

(** X27. A word written by a batch that is not empty, with sense numbers
    that can be bound, is listed afterwards, case-folded, so the editor's
    menu, which looks the lowercased word up in [get_words_list], does
    not offer to add it again.  An empty batch returns and changes
    nothing. *)
Theorem add_multiple_entries_lists_word lower s w c entries :
  Forall (λ t, Sql.fits_int64 t.2) entries →
  entries ≠ [] →
  lower w ∈ get_words_list (add_multiple_entries lower w c entries s).2 ∧
  add_multiple_entries lower w c [] s = (Returned (), s).
Proof.
  intros Hfits Hne. split; [|done].
  rewrite add_multiple_entries_fits by done. cbn [snd].
  apply get_words_list_elem.
  destruct (exists_last Hne) as (entries' & [[[pos d] x] n] & ->).
  exists (Entry (lower w) c pos d x n). split; [|done].
  apply Forall_app in Hfits as [_ [Hn _]%Forall_cons].
  rewrite foldl_app. simpl. rewrite add_entry_fits by done. simpl.
  unfold Sql.insert_or_replace. apply elem_of_app. right.
  by apply list_elem_of_singleton.
Qed.

Lemma add_multiple_entries_lists_word_witness :
  Forall (λ t, Sql.fits_int64 t.2) two_meanings ∧
  two_meanings ≠ [] ∧
  Text.lower "Kaneran" ∈
    get_words_list (add_multiple_entries Text.lower "Kaneran" "Species" two_meanings fresh_store).2 ∧
  add_multiple_entries Text.lower "Kaneran" "Species" [] fresh_store = (Returned (), fresh_store).
Proof.
  assert (H1 : Forall (λ t, Sql.fits_int64 t.2) two_meanings).
  { apply (bool_decide_unpack _). vm_compute. exact I. }
  assert (H2 : two_meanings ≠ []) by discriminate.
  split; [exact H1|]. split; [exact H2|].
  exact (add_multiple_entries_lists_word Text.lower fresh_store "Kaneran" "Species"
           two_meanings H1 H2).
Defined.

(** *** Archives *)

Lemma written_nonempty {A} (l : list A) : l ≠ [] → written (Some l) = Some l.
Proof. by destruct l. Qed.

Lemma import_dictionary_replace_rows data rows s :
  Forall2 (λ e r, payload_row e = Some r) data rows →
  Forall (λ r, Sql.fits_int64 (sense_number r)) rows →
  NoDup (unique_key <$> rows) →
  import_dictionary data "replace" s = (Returned (), set_dictionary (λ _, rows) s).
Proof.
  intros H2 Hfits Hnd. unfold import_dictionary. eapply with_conn_returned. simpl.
  unfold mbind at 1, conn_bind; simpl.
  by rewrite (for_each_import_merge _ _ _ H2 Hfits Hnd).
Qed.

Lemma import_dictionary_missing_key data mode s :
  Exists malformed data → ∃ e, import_dictionary data mode s = (Raised e, s).
Proof.
  intros H. unfold import_dictionary.
  set (purge := if String.eqb mode "replace" then _ else _).
  assert (∃ e s', (purge;; for_each import_entry data) s = (Raised e, s'))
    as (e & s' & Hbody).
  { unfold mbind, conn_bind.
    destruct (purge s) as [[u|e] s0]; [|eauto].
    apply for_each_raised. eapply Exists_impl; [exact H|].
    intros e He s1. destruct (import_entry_malformed e s1 He) as [k Hk]. eauto. }
  exists e. by eapply with_conn_raised.
Qed.

Lemma lower_Replace : Text.lower "Replace" = "replace"%string.
Proof. reflexivity. Qed.

Lemma lower_Skip : Text.lower "Skip" = "skip"%string.
Proof. reflexivity. Qed.

(** X28. A project round trip: the archive exported from a store that
    satisfies its constraints and has entries and contexts, with both
    boxes checked, imported with "Replace" for both kinds, returns and
    puts into the importing store the entries and the contexts of the
    exported one, in the order of the export; the settings of the
    importing store stay. *)
Theorem export_import_project_round_trip s s0 :
  store_ok s → dictionary s ≠ [] → contexts s ≠ [] →
  ∃ s', import_project (export_project true true s) "Replace" "Replace" s0
          = (Returned (), s') ∧
        dictionary s' = get_all_entries s ∧ dictionary s' ≡ₚ dictionary s ∧
        contexts s' = get_contexts s ∧ contexts s' ≡ₚ contexts s ∧
        settings s' = settings s0.
Proof.
  intros [Hnd Hfits Hnames] Hd Hc.
  assert (export_dictionary s ≠ []) as Hd'.
  { unfold export_dictionary. intros Heq%fmap_nil_inv. apply Hd.
    apply Permutation_nil_r. by rewrite <- get_all_entries_perm, Heq. }
  assert (export_contexts s ≠ []) as Hc'.
  { unfold export_contexts. intros Heq%fmap_nil_inv. apply Hc.
    apply Permutation_nil_r. unfold get_contexts in Heq.
    by rewrite <- (merge_sort_Permutation String.le), Heq. }
  assert (import_dictionary (export_dictionary s) "replace" s0
          = (Returned (), set_dictionary (λ _, get_all_entries s) s0)) as Hdict.
  { apply import_dictionary_replace_rows.
    - apply payload_row_export.
    - by rewrite get_all_entries_perm.
    - by rewrite get_all_entries_perm. }
  set (s1 := set_dictionary (λ _, get_all_entries s) s0) in *.
  assert (Forall2 (λ e n, d_name e = Some n) (export_contexts s) (get_contexts s))
    as H2.
  { unfold export_contexts. induction (get_contexts s); constructor; done. }
  pose proof (import_contexts_replace _ _ s1 H2) as Hctx.
  exists (add_names (get_contexts s) (set_contexts (λ _, []) s1)). split.
  - unfold import_project, export_project. cbv zeta.
    cbn [dictionary_json contexts_json].
    rewrite !written_nonempty by done. rewrite lower_Replace.
    rewrite !decide_True by done.
    unfold mbind at 1, conn_bind. rewrite Hdict. exact Hctx.
  - destruct (add_names_tables (get_contexts s) (set_contexts (λ _, []) s1))
      as [-> ->].
    assert (contexts (add_names (get_contexts s) (set_contexts (λ _, []) s1))
            = get_contexts s) as ->.
    { rewrite add_names_new; [done|]. simpl.
      unfold get_contexts. by rewrite merge_sort_Permutation. }
    simpl. split_and!; [done|apply get_all_entries_perm|done| |done].
    apply merge_sort_Permutation.
Qed.

Lemma export_import_project_round_trip_witness :
  store_ok two_categories ∧ dictionary two_categories ≠ [] ∧
  contexts two_categories ≠ [] ∧
  ∃ s', import_project (export_project true true two_categories) "Replace" "Replace"
                       fresh_store = (Returned (), s') ∧
        dictionary s' = get_all_entries two_categories ∧
        dictionary s' ≡ₚ dictionary two_categories ∧
        contexts s' = get_contexts two_categories ∧
        contexts s' ≡ₚ contexts two_categories ∧
        settings s' = settings fresh_store.
Proof.
  assert (H1 : dictionary two_categories ≠ []) by (vm_compute; discriminate).
  assert (H2 : contexts two_categories ≠ []) by (vm_compute; discriminate).
  split; [exact two_categories_ok|]. split; [exact H1|]. split; [exact H2|].
  exact (export_import_project_round_trip two_categories fresh_store
           two_categories_ok H1 H2).
Defined.

(** X29. What an import leaves alone.  With "Skip" for both kinds, or
    with an archive that has neither member, [import_project] returns
    and the store is unchanged.  And since [export_project] writes no
    [dictionary.json] for a store without entries, importing such an
    archive with "Replace" for the dictionary purges nothing. *)
Theorem import_project_leaves_alone a s s0 dict_mode ctx_mode include_ctx :
  dictionary s0 = [] →
  import_project a "Skip" "Skip" s = (Returned (), s) ∧
  import_project (Archive None None) dict_mode ctx_mode s = (Returned (), s) ∧
  import_project (export_project true include_ctx s0) "Replace" "Skip" s
    = (Returned (), s).
Proof.
  intros Hempty. split_and!.
  - unfold import_project. rewrite lower_Skip.
    destruct (dictionary_json a), (contexts_json a); done.
  - done.
  - unfold import_project, export_project, export_dictionary, get_all_entries.
    rewrite Hempty, lower_Skip. simpl.
    by destruct (written (if include_ctx then _ else _)).
Qed.

Lemma import_project_leaves_alone_witness :
  dictionary fresh_store = [] ∧
  import_project half_good_archive "Skip" "Skip" two_categories
    = (Returned (), two_categories) ∧
  import_project (Archive None None) "Replace" "Replace" two_categories
    = (Returned (), two_categories) ∧
  import_project (export_project true true fresh_store) "Replace" "Skip" two_categories
    = (Returned (), two_categories).
Proof.
  assert (H : dictionary fresh_store = []) by (vm_compute; reflexivity).
  split; [exact H|].
  exact (import_project_leaves_alone half_good_archive two_categories fresh_store
           "Replace" "Replace" true H).
Defined.

(** X30. An import of a project is two transactions, not one.  When the
    dictionary member can be stored and the contexts member has a
    mapping without a name, [import_project] raises [KeyError] for
    "name" after the entries were replaced: the store then holds the
    payload's entries and its old contexts.  When the dictionary member
    has a mapping that lacks a key, the call raises before the contexts
    are looked at and the store is unchanged. *)
Theorem import_project_two_transactions data ctxs s ctx_mode :
  Text.lower ctx_mode ≠ "skip"%string →
  Exists (λ e, d_name e = None) ctxs →
  (Forall well_formed data → NoDup (payload_key <$> data) →
   ∃ s', import_project (Archive (Some data) (Some ctxs)) "Replace" ctx_mode s
           = (Raised (KeyError "name"), s') ∧
         Some <$> dictionary s' = payload_row <$> data ∧
         contexts s' = contexts s ∧ settings s' = settings s) ∧
  (Exists malformed data →
   ∃ e, import_project (Archive (Some data) (Some ctxs)) "Replace" ctx_mode s
        = (Raised e, s)).
Proof.
  intros Hmode Hctx. split.
  - intros Hwf Hnd.
    destruct (well_formed_rows data Hwf) as (rows & H2 & Hfits & Hkeys).
    exists (set_dictionary (λ _, rows) s). split.
    + unfold import_project. rewrite lower_Replace. simpl.
      unfold mbind at 1, conn_bind.
      rewrite (import_dictionary_replace_rows data rows) by
        (done || by eapply payload_keys_NoDup).
      rewrite decide_True by done. by apply import_contexts_missing_name.
    + split_and!; [|done..]. simpl.
      clear -H2. induction H2 as [|e r data rows He _ IH]; [done|].
      rewrite !fmap_cons. by f_equal.
  - intros Hbad.
    destruct (import_dictionary_missing_key data "replace" s Hbad) as [e He].
    exists e. unfold import_project. rewrite lower_Replace. simpl.
    unfold mbind at 1, conn_bind. by rewrite He.
Qed.

Lemma import_project_two_transactions_witness :
  Text.lower "Merge" ≠ "skip"%string ∧
  Exists (λ e, d_name e = None) [ContextDict (Some "Galaxy"); ContextDict None] ∧
  Forall well_formed two_entry_payload ∧
  NoDup (payload_key <$> two_entry_payload) ∧
  Exists malformed broken_payload ∧
  (∃ s', import_project half_good_archive "Replace" "Merge" two_categories
           = (Raised (KeyError "name"), s') ∧
         Some <$> dictionary s' = payload_row <$> two_entry_payload ∧
         contexts s' = contexts two_categories ∧
         settings s' = settings two_categories) ∧
  (∃ e, import_project
          (Archive (Some broken_payload)
                   (Some [ContextDict (Some "Galaxy"); ContextDict None]))
          "Replace" "Merge" two_categories
        = (Raised e, two_categories)).
Proof.
  assert (H0 : Text.lower "Merge" ≠ "skip"%string) by discriminate.
  assert (H1 : Exists (λ e, d_name e = None)
                      [ContextDict (Some "Galaxy"); ContextDict None]).
  { apply Exists_cons_tl, Exists_cons_hd. reflexivity. }
  assert (Hwf : Forall well_formed two_entry_payload).
  { repeat apply List.Forall_cons; try apply List.Forall_nil;
      (split; [intros [H|[H|[H|[H|H]]]]; discriminate | exact I]). }
  assert (Hnd : NoDup (payload_key <$> two_entry_payload)).
  { apply (bool_decide_unpack _). vm_compute. exact I. }
  assert (Hbad : Exists malformed broken_payload).
  { apply Exists_cons_tl, Exists_cons_hd. right; right; right; left. reflexivity. }
  split; [exact H0|]. split; [exact H1|]. split; [exact Hwf|].
  split; [exact Hnd|]. split; [exact Hbad|]. split.
  - exact (proj1 (import_project_two_transactions two_entry_payload _ two_categories
                    "Merge" H0 H1) Hwf Hnd).
  - exact (proj2 (import_project_two_transactions broken_payload _ two_categories
                    "Merge" H0 H1) Hbad).
Defined.
